(** * Resource-governance core of the FFmpeg MCP server

    A shallow embedding of the three governance components of the server
    and the properties they satisfy:

    - [Security]  : utils/security.ts  (rate limiter, path validation,
                    FFmpeg argument sanitisation);
    - [Cache]     : utils/cache.ts     (media-info cache with freshness
                    check and eviction sweep);
    - [Scheduler] : utils/queue.ts     (job queue with a concurrency
                    ceiling, priorities and per-job timeouts);
    - [EventLoop] : utils/queue.ts     (the queue run with [executeJob]
                    of the class, which throws at once);
    - [Executor]  : utils/ffmpeg.ts    (the argument list handed to the
                    process).

    Conventions.  JavaScript numbers that count things (sizes, request
    counters, configured ceilings) are [nat]; instants and durations in
    milliseconds are [Z].  A JavaScript [Map] whose iteration order is
    never observed is a [gmap]; the cache, whose sweep iterates the map
    in insertion order before sorting, is an association list.  The
    clock ([Date.now()]), the file system and, in [Scheduler], the
    executor are the environment: their answers are arguments of the
    operations. *)

From stdpp Require Import gmap strings list fin_maps sorting.
From Stdlib Require Import ZArith.

Local Open Scope string_scope.
Local Open Scope list_scope.
Local Open Scope Z_scope.

(** ** JavaScript helpers shared by the components *)

(** [s.startsWith(p)] *)
Definition startsWith (s p : string) : bool := String.prefix p s.

(** [s.includes(p)] *)
Fixpoint includes (s p : string) : bool :=
  String.prefix p s ||
  match s with
  | EmptyString => false
  | String _ s' => includes s' p
  end.

(** [Array.prototype.sort(cmp)].  The engine's sort is stable; for a
    comparator that is a total preorder every stable sort returns the
    same array, here computed by insertion from the right.  [cmp a b]
    is the number the comparator returns: negative keeps [a] before
    [b], positive moves [b] in front, zero keeps the original order. *)
Section JsSort.
Context {A : Type} (cmp : A → A → Z).

Fixpoint js_insert (x : A) (l : list A) : list A :=
  match l with
  | [] => [x]
  | y :: l' => if cmp x y <=? 0 then x :: y :: l' else y :: js_insert x l'
  end.

Fixpoint js_sort (l : list A) : list A :=
  match l with
  | [] => []
  | x :: l' => js_insert x (js_sort l')
  end.
End JsSort.

(** ** utils/security.ts *)
Module Security.

Record SecurityConfig := {
  rateLimitWindow : Z;            (* in seconds *)
  rateLimitMaxRequests : nat;
  allowedDirectories : list string;
  blockedExtensions : list string
}.

Record RateLimitEntry := {
  count : nat;
  windowStart : Z
}.

Record SecurityManager := {
  rateLimitMap : gmap string RateLimitEntry;
  blockedIPs : gset string
}.

Definition initial : SecurityManager :=
  {| rateLimitMap := ∅; blockedIPs := ∅ |}.

Section Manager.
Variable config : SecurityConfig.

(** Node's [path.resolve], [path.extname] followed by
    [toLowerCase], and [fs.existsSync]. *)
Variable resolve : string → string.
Variable extnameLower : string → string.
Variable existsSync : string → bool.

Definition cleanupRateLimitMap (now : Z) (s : SecurityManager)
  : SecurityManager :=
  {| rateLimitMap :=
       filter (λ kv, ¬ (now - windowStart kv.2
                          > rateLimitWindow config * 1000))
              (rateLimitMap s);
     blockedIPs := blockedIPs s |}.

Definition checkRateLimit (now : Z) (clientId : string)
    (s : SecurityManager) : bool * SecurityManager :=
  if decide (clientId ∈ blockedIPs s) then (false, s)
  else
    match rateLimitMap s !! clientId with
    | None =>
        (true,
         {| rateLimitMap :=
              <[clientId := {| count := 1; windowStart := now |}]>
                (rateLimitMap s);
            blockedIPs := blockedIPs s |})
    | Some entry =>
        if decide (now - windowStart entry
                     > rateLimitWindow config * 1000)
        then
          (true,
           {| rateLimitMap :=
                <[clientId := {| count := 1; windowStart := now |}]>
                  (rateLimitMap s);
              blockedIPs := blockedIPs s |})
        else
          let entry' := {| count := S (count entry);
                           windowStart := windowStart entry |} in
          let m := <[clientId := entry']> (rateLimitMap s) in
          if decide (rateLimitMaxRequests config < count entry')%nat
          then (false,
                {| rateLimitMap := m;
                   blockedIPs := {[clientId]} ∪ blockedIPs s |})
          else (true,
                {| rateLimitMap := m; blockedIPs := blockedIPs s |})
    end.

(** [validateFilePath] throws or returns; [None] is a normal
    return, [Some msg] the message of the error thrown. *)
Definition validateFilePath (filePath : string) : option string :=
  if decide (filePath = "") then Some "Invalid file path"
  else
    let resolvedPath := resolve filePath in
    if includes filePath ".." || includes filePath "~"
    then Some "Invalid file path: directory traversal not allowed"
    else if negb (existsb (λ dir, startsWith resolvedPath (resolve dir))
                          (allowedDirectories config))
    then Some "Access to this directory is not allowed"
    else
      let ext := extnameLower filePath in
      if bool_decide (ext ∈ blockedExtensions config)
      then Some ("File extension '" +:+ ext +:+ "' is not allowed")
      else if negb (existsSync resolvedPath)
      then Some ("File not found: " +:+ filePath)
      else None.

Definition dangerousFlags : list string :=
  ["-f"; "lavfi"; "-protocol_whitelist"; "-safe"; "0"; "-f"; "concat"].

Definition looksLikePath (arg : string) : bool :=
  startsWith arg "/" || startsWith arg "./" || startsWith arg "../".

(** The [for] loop over the indices of [args]; [continue] is the
    recursive call on the rest, [i++; continue] the call on the
    rest of the rest. *)
Fixpoint sanitizeFFmpegArgs (args : list string) : list string :=
  match args with
  | [] => []
  | arg :: rest =>
      if bool_decide (arg ∈ dangerousFlags) then sanitizeFFmpegArgs rest
      else
        let checked :=
          if looksLikePath arg
             && bool_decide (is_Some (validateFilePath arg))
          then sanitizeFFmpegArgs rest
          else arg :: sanitizeFFmpegArgs rest in
        match rest with
        | next :: rest' =>
            if bool_decide (arg = "-i") && bool_decide (next = "pipe:")
            then sanitizeFFmpegArgs rest'
            else checked
        | [] => checked
        end
  end.

(** The calls the manager receives over time: requests of clients
    and the sweep of the one-minute timer. *)
Inductive event :=
| Request (clientId : string) (now : Z)
| Sweep (now : Z).

Definition step (s : SecurityManager) (e : event) : SecurityManager :=
  match e with
  | Request c now => (checkRateLimit now c s).2
  | Sweep now => cleanupRateLimitMap now s
  end.

(** The answers given to [clientId], oldest first. *)
Fixpoint answers (clientId : string) (evs : list event)
    (s : SecurityManager) : list bool :=
  match evs with
  | [] => []
  | e :: evs' =>
      match e with
      | Request c now =>
          if decide (c = clientId)
          then (checkRateLimit now c s).1 :: answers clientId evs' (step s e)
          else answers clientId evs' (step s e)
      | Sweep _ => answers clientId evs' (step s e)
      end
  end.

Definition run (evs : list event) (s : SecurityManager) : SecurityManager :=
  foldl step s evs.

Definition eventTime (e : event) : Z :=
  match e with
  | Request _ now => now
  | Sweep now => now
  end.

(** How many of the events are requests of [clientId]. *)
Fixpoint requestsBy (clientId : string) (evs : list event) : nat :=
  match evs with
  | [] => 0
  | Request c _ :: evs' =>
      if decide (c = clientId) then S (requestsBy clientId evs')
      else requestsBy clientId evs'
  | Sweep _ :: evs' => requestsBy clientId evs'
  end.

(** The request of [clientId] at [now] opens a window: the client has
    not been seen, or its window has run out. *)
Definition opensWindow (now : Z) (clientId : string) (s : SecurityManager)
  : Prop :=
  match rateLimitMap s !! clientId with
  | None => True
  | Some entry => now - windowStart entry > rateLimitWindow config * 1000
  end.

(** The client has an open window started at [t1] with [k] requests
    counted, and is not blocked. *)
Definition counting (c : string) (t1 : Z) (k : nat) (s : SecurityManager)
  : Prop :=
  (c ∉ blockedIPs s)
  ∧ rateLimitMap s !! c = Some {| count := k; windowStart := t1 |}.

End Manager.
End Security.

(** ** ServerConfig['performance'], shared by the cache and the queue *)
Record PerformanceConfig := {
  enableCaching : bool;
  cacheSize : nat;
  enableHardwareAcceleration : bool;
  maxConcurrentJobs : nat;
  queueTimeout : Z
}.

(** ** utils/cache.ts *)
Module Cache.

(** A JavaScript [Map] with string keys, in insertion order: [set]
    on a present key replaces the value where it stands, on an absent
    key appends; [delete] removes the key. *)
Section JsMap.
Context {V : Type}.

Fixpoint map_get (k : string) (m : list (string * V)) : option V :=
  match m with
  | [] => None
  | (k', v) :: m' => if decide (k' = k) then Some v else map_get k m'
  end.

Fixpoint map_set (k : string) (v : V) (m : list (string * V))
  : list (string * V) :=
  match m with
  | [] => [(k, v)]
  | (k', v') :: m' =>
      if decide (k' = k) then (k, v) :: m' else (k', v') :: map_set k v m'
  end.

Definition map_delete (k : string) (m : list (string * V))
  : list (string * V) :=
  filter (λ kv, kv.1 ≠ k) m.

(** No key is listed twice: what every [Map] satisfies. *)
Definition map_wf (m : list (string * V)) : Prop := NoDup m.*1.
End JsMap.

Section Manager.
Context {MediaInfo : Type}.

Record CacheEntry := {
  data : MediaInfo;
  timestamp : Z;
  accessCount : nat
}.

Record CacheManager := {
  mediaInfoCache : list (string * CacheEntry)
}.

Definition initial : CacheManager := {| mediaInfoCache := [] |}.

Variable config : PerformanceConfig.

Definition maxSize : nat := cacheSize config.

(** The sign of [scoreA - scoreB], where a score is
    [accessCount / (Date.now() - timestamp)] and one clock reading
    [now] serves the whole sweep.  The quotients are compared
    exactly; a zero age gives the infinities and NaN of the
    JavaScript division, and a NaN difference counts as zero, as
    [sort] takes it. *)
Definition scoreDifference (now : Z) (a b : string * CacheEntry) : Z :=
  let ca := Z.of_nat (accessCount a.2) in
  let cb := Z.of_nat (accessCount b.2) in
  let xa := now - timestamp a.2 in
  let xb := now - timestamp b.2 in
  match xa =? 0, xb =? 0 with
  | false, false => Z.sgn ((ca * xb - cb * xa) * (xa * xb))
  | true, false => Z.sgn ca
  | false, true => - Z.sgn cb
  | true, true => 0
  end.

(** [Math.floor(this.maxSize * 0.2)]: for a natural [maxSize] the
    double product never falls on the other side of an integer, so
    this is the integer quotient by five. *)
Definition toRemoveCount : nat := (maxSize / 5)%nat.

Definition cleanupCache (now : Z) (s : CacheManager) : CacheManager :=
  if decide (length (mediaInfoCache s) ≤ maxSize)%nat then s
  else
    let entries := js_sort (scoreDifference now) (mediaInfoCache s) in
    let toRemove := take toRemoveCount entries in
    {| mediaInfoCache :=
         foldl (λ m kv, map_delete kv.1 m) (mediaInfoCache s) toRemove |}.

Definition generateCacheKey (filePath operation : string) : string :=
  operation +:+ ":" +:+ filePath.

(** [statSync] gives the modification time of a file in
    milliseconds, or [None] where [fs.statSync] throws. *)
Definition getMediaInfo (statSync : string → option Z)
    (filePath : string) (s : CacheManager)
  : option MediaInfo * CacheManager :=
  if negb (enableCaching config) then (None, s)
  else
    let key := generateCacheKey filePath "mediaInfo" in
    match map_get key (mediaInfoCache s) with
    | None => (None, s)
    | Some entry =>
        match statSync filePath with
        | Some mtime =>
            if decide (mtime > timestamp entry)
            then (None,
                  {| mediaInfoCache := map_delete key (mediaInfoCache s) |})
            else
              (Some (data entry),
               {| mediaInfoCache :=
                    map_set key
                      {| data := data entry;
                         timestamp := timestamp entry;
                         accessCount := S (accessCount entry) |}
                      (mediaInfoCache s) |})
        | None =>
            (None,
             {| mediaInfoCache := map_delete key (mediaInfoCache s) |})
        end
    end.

(** [size > maxSize * 1.2] on naturals is [5 * size > 6 * maxSize]:
    the double nearest to [maxSize * 1.2] is the exact product
    whenever that is an integer. *)
Definition setMediaInfo (now : Z) (filePath : string) (info : MediaInfo)
    (s : CacheManager) : CacheManager :=
  if negb (enableCaching config) then s
  else
    let key := generateCacheKey filePath "mediaInfo" in
    let entry := {| data := info; timestamp := now; accessCount := 1 |} in
    let s' := {| mediaInfoCache := map_set key entry (mediaInfoCache s) |} in
    if decide (6 * maxSize < 5 * length (mediaInfoCache s'))%nat
    then cleanupCache now s'
    else s'.

Definition invalidateMediaInfo (filePath : string) (s : CacheManager)
  : CacheManager :=
  let key := generateCacheKey filePath "mediaInfo" in
  {| mediaInfoCache := map_delete key (mediaInfoCache s) |}.

Definition clearCache (s : CacheManager) : CacheManager :=
  {| mediaInfoCache := [] |}.

(** The calls the cache receives: the public methods and the
    five-minute timer that runs [cleanupCache]. *)
Inductive event :=
| Get (statSync : string → option Z) (filePath : string)
| Set_ (now : Z) (filePath : string) (info : MediaInfo)
| Invalidate (filePath : string)
| Sweep (now : Z)
| Clear.

Definition step (s : CacheManager) (e : event) : CacheManager :=
  match e with
  | Get statSync filePath => (getMediaInfo statSync filePath s).2
  | Set_ now filePath info => setMediaInfo now filePath info s
  | Invalidate filePath => invalidateMediaInfo filePath s
  | Sweep now => cleanupCache now s
  | Clear => clearCache s
  end.

Definition run (evs : list event) : CacheManager := foldl step initial evs.

End Manager.
Arguments CacheEntry : clear implicits.
Arguments CacheManager : clear implicits.
Arguments event : clear implicits.
End Cache.

(** ** utils/queue.ts *)
Module Scheduler.

(** The errors a job's promise is rejected with. *)
Inductive failure :=
| TimedOut (jobId : string) (afterMs : Z)   (* "Job <id> timed out after <n>ms" *)
| Cancelled                                 (* "Job cancelled" *)
| ExecutorError (message : string).         (* whatever [executeJob] threw *)

(** The state of the promise [addJob] returns.  [resolve] and
    [reject] act on a pending promise only: [settle]. *)
Inductive settlement :=
| Pending
| Resolved (result : string)
| Rejected (reason : failure).

(** [resolve] and [reject] are the two functions of the promise
    created by [addJob]; the job carries them as [promise], the index
    of that promise among all promises created so far.  Promises are
    created by [addJob] only, so [promise] also numbers the jobs in
    the order of their submission.  The queue never looks into [args]
    or into a result: an argument list and a string stand for them. *)
Record Job := {
  id : string;
  type : string;
  args : list string;
  priority : Z;
  startTime : option Z;
  promise : nat
}.

(** What the queue asks of the executor.  [Run] is the call of
    [executeJob].  [Terminate] is the out-of-band termination that the
    executor interface offers; queue.ts has no code that issues it, and
    the constructor is here to say so. *)
Inductive executorCall :=
| Run (job : Job)
| Terminate (job : Job).

Record JobQueue := {
  queue : list Job;
  running : gmap string Job;
  completed : gmap string (string * Z);
  (** every promise created by [addJob], by index *)
  promises : list settlement;
  (** armed timeout timers, by the promise of their job *)
  timers : gmap nat Job;
  (** activations of [startJob] suspended at [await executeJob],
      by the promise of their job *)
  awaiting : gmap nat Job;
  (** the calls made to the executor, oldest first *)
  executorCalls : list executorCall
}.

Definition initial : JobQueue :=
  {| queue := []; running := ∅; completed := ∅; promises := [];
     timers := ∅; awaiting := ∅; executorCalls := [] |}.

Definition settle (p : nat) (v : settlement) (ps : list settlement)
  : list settlement :=
  match ps !! p with
  | Some Pending => <[p := v]> ps
  | _ => ps
  end.

Section Queue.
Variable config : PerformanceConfig.

(** The part of [startJob] that runs inside the caller's turn: up
    to the [await].  The timer is armed and the executor called;
    how and when the executor answers is an [event] below. *)
Definition startJob (now : Z) (job : Job) (s : JobQueue) : JobQueue :=
  let job := {| id := id job; type := type job; args := args job;
                priority := priority job; startTime := Some now;
                promise := promise job |} in
  {| queue := queue s;
     running := <[id job := job]> (running s);
     completed := completed s;
     promises := promises s;
     timers := <[promise job := job]> (timers s);
     awaiting := <[promise job := job]> (awaiting s);
     executorCalls := executorCalls s ++ [Run job] |}.

(** [(a, b) => b.priority - a.priority] *)
Definition byPriority (a b : Job) : Z := priority b - priority a.

Definition processQueue (now : Z) (s : JobQueue) : JobQueue :=
  if decide (maxConcurrentJobs config ≤ size (running s))%nat then s
  else if decide (length (queue s) = 0%nat) then s
  else
    match js_sort byPriority (queue s) with
    | job :: rest =>
        startJob now job
          {| queue := rest; running := running s;
             completed := completed s; promises := promises s;
             timers := timers s; awaiting := awaiting s;
             executorCalls := executorCalls s |}
    | [] => s
    end.

Definition cleanupCompleted (now : Z) (s : JobQueue) : JobQueue :=
  {| queue := queue s; running := running s;
     completed := filter (λ kv, ¬ (now - kv.2.2 > 60000)) (completed s);
     promises := promises s; timers := timers s; awaiting := awaiting s;
     executorCalls := executorCalls s |}.

(** [stamp] stands for the clock reading and the random suffix of
    the job id. *)
Definition addJob (type : string) (args : list string) (priority : Z)
    (stamp : string) (s : JobQueue) : JobQueue :=
  let job := {| id := type +:+ "-" +:+ stamp; type := type; args := args;
                priority := priority; startTime := None;
                promise := length (promises s) |} in
  {| queue := queue s ++ [job]; running := running s;
     completed := completed s; promises := promises s ++ [Pending];
     timers := timers s; awaiting := awaiting s;
     executorCalls := executorCalls s |}.

Inductive status := queued | running_ | completed_ | not_found.

Definition getJobStatus (jobId : string) (s : JobQueue) : status :=
  if existsb (λ job, bool_decide (id job = jobId)) (queue s) then queued
  else if bool_decide (is_Some (running s !! jobId)) then running_
  else if bool_decide (is_Some (completed s !! jobId)) then completed_
  else not_found.

Definition getQueueStats (s : JobQueue) : nat * nat * nat :=
  (length (queue s), size (running s), size (completed s)).

(** [findIndex] and [splice]: the first queued job with that id. *)
Fixpoint removeFirst (jobId : string) (q : list Job)
  : option (Job * list Job) :=
  match q with
  | [] => None
  | job :: q' =>
      if decide (id job = jobId) then Some (job, q')
      else
        match removeFirst jobId q' with
        | Some (found, q'') => Some (found, job :: q'')
        | None => None
        end
  end.

Definition cancelJob (jobId : string) (s : JobQueue) : bool * JobQueue :=
  match removeFirst jobId (queue s) with
  | Some (job, q) =>
      (true,
       {| queue := q; running := running s; completed := completed s;
          promises := settle (promise job) (Rejected Cancelled) (promises s);
          timers := timers s; awaiting := awaiting s;
          executorCalls := executorCalls s |})
  | None =>
      match running s !! jobId with
      | Some runningJob =>
          (true,
           {| queue := queue s; running := delete jobId (running s);
              completed := completed s;
              promises := settle (promise runningJob) (Rejected Cancelled)
                            (promises s);
              timers := timers s; awaiting := awaiting s;
              executorCalls := executorCalls s |})
      | None => (false, s)
      end
  end.

(** The callback of the timer armed by [startJob]. *)
Definition timeoutFires (job : Job) (s : JobQueue) : JobQueue :=
  {| queue := queue s; running := delete (id job) (running s);
     completed := completed s;
     promises := settle (promise job)
                   (Rejected (TimedOut (id job) (queueTimeout config)))
                   (promises s);
     timers := delete (promise job) (timers s);
     awaiting := awaiting s; executorCalls := executorCalls s |}.

(** [startJob] after the [await], when the executor returned
    [result]. *)
Definition executorReturns (now : Z) (job : Job) (result : string)
    (s : JobQueue) : JobQueue :=
  {| queue := queue s; running := delete (id job) (running s);
     completed := <[id job := (result, now)]> (completed s);
     promises := settle (promise job) (Resolved result) (promises s);
     timers := delete (promise job) (timers s);     (* clearTimeout *)
     awaiting := delete (promise job) (awaiting s);
     executorCalls := executorCalls s |}.

(** [startJob] after the [await], when the executor threw: the
    [catch] block, which leaves the timer armed. *)
Definition executorThrows (job : Job) (message : string) (s : JobQueue)
  : JobQueue :=
  {| queue := queue s; running := delete (id job) (running s);
     completed := completed s;
     promises := settle (promise job) (Rejected (ExecutorError message))
                   (promises s);
     timers := timers s;
     awaiting := delete (promise job) (awaiting s);
     executorCalls := executorCalls s |}.

(** What happens to the queue, one turn of the event loop at a
    time.  [Tick] is the one-second interval.  The executor is the
    environment: [executeJob] of this class throws at once ("Job
    execution not implemented in base class"), which is the trace
    where [ExecutorThrows] follows each dispatch directly; a real
    executor answers later, or after the timer.  An event that is
    not due (no such timer armed, no such activation suspended)
    leaves the state as it is. *)
Inductive event :=
| AddJob (type : string) (args : list string) (priority : Z) (stamp : string)
| Tick (now : Z)
| ExecutorReturns (p : nat) (now : Z) (result : string)
| ExecutorThrows (p : nat) (message : string)
| TimeoutFires (p : nat)
| CancelJob (jobId : string).

Definition step (s : JobQueue) (e : event) : JobQueue :=
  match e with
  | AddJob type args priority stamp => addJob type args priority stamp s
  | Tick now => cleanupCompleted now (processQueue now s)
  | ExecutorReturns p now result =>
      match awaiting s !! p with
      | Some job => executorReturns now job result s
      | None => s
      end
  | ExecutorThrows p message =>
      match awaiting s !! p with
      | Some job => executorThrows job message s
      | None => s
      end
  | TimeoutFires p =>
      match timers s !! p with
      | Some job => timeoutFires job s
      | None => s
      end
  | CancelJob jobId => (cancelJob jobId s).2
  end.

Definition run (evs : list event) : JobQueue := foldl step initial evs.

(** The jobs handed to the executor, in the order of dispatch. *)
Definition dispatched (s : JobQueue) : list Job :=
  omap (λ c, match c with Run job => Some job | Terminate _ => None end)
       (executorCalls s).

(** [a] goes before [b]: higher priority, or the same priority and
    submitted earlier. *)
Definition goesBefore (a b : Job) : Prop :=
  priority b < priority a
  ∨ (priority a = priority b ∧ (promise a < promise b)%nat).

(** Jobs of one priority stand in the order of their submission. *)
Definition inSubmissionOrder (a b : Job) : Prop :=
  priority a = priority b → (promise a < promise b)%nat.

Definition byDescendingPriority (a b : Job) : Prop :=
  priority b <= priority a.

(** What every reachable queue satisfies: jobs of equal priority stand
    in submission order, and every queued job holds a promise that
    exists. *)
Definition queueOrdered (s : JobQueue) : Prop :=
  StronglySorted inSubmissionOrder (queue s)
  ∧ Forall (λ job, (promise job < length (promises s))%nat) (queue s).


(** How many of the events are submissions. *)
Fixpoint submissions (evs : list event) : nat :=
  match evs with
  | [] => 0
  | AddJob _ _ _ _ :: evs' => S (submissions evs')
  | _ :: evs' => submissions evs'
  end.

End Queue.
End Scheduler.

(** ** utils/queue.ts: the queue with the executor of the class *)
Module EventLoop.

Definition notImplemented : string :=
  "Job execution not implemented in base class".

(** [executeJob], "a placeholder": an async function that throws
    before any [await], whatever the job.  [inl] is a returned result,
    [inr] the message of the error thrown. *)
Definition executeJob (job : Scheduler.Job) : string + string :=
  inr notImplemented.

(** How a suspended [startJob] goes on with what [executeJob] gave:
    the code after the [await], or the [catch] block. *)
Definition outcome (now : Z) (job : Scheduler.Job) : Scheduler.event :=
  match executeJob job with
  | inl result => Scheduler.ExecutorReturns (Scheduler.promise job) now result
  | inr message => Scheduler.ExecutorThrows (Scheduler.promise job) message
  end.

(** The jobs dispatched between [s] and [s']. *)
Definition newRuns (s s' : Scheduler.JobQueue) : list Scheduler.Job :=
  drop (length (Scheduler.dispatched s)) (Scheduler.dispatched s').

(** The turns of the event loop that reach the queue: a call of
    [addJob], the callback of the one-second interval, the callback of
    the timer armed for the job of promise [p], a call of
    [cancelJob]. *)
Inductive turn :=
| Submit (type : string) (args : list string) (priority : Z) (stamp : string)
| Interval (now : Z)
| Timer (p : nat)
| Cancel (jobId : string).

Section Loop.
Variable config : PerformanceConfig.

(** What a turn does to the queue.  The promise [executeJob] returns
    is rejected when [startJob] awaits it, so the [catch] block of a
    job runs in the microtasks of the interval turn that dispatched
    it: after [processQueue] and [cleanupCompleted], before any timer
    and any later call. *)
Definition turnEvents (s : Scheduler.JobQueue) (t : turn)
  : list Scheduler.event :=
  match t with
  | Submit type args priority stamp =>
      [Scheduler.AddJob type args priority stamp]
  | Interval now =>
      Scheduler.Tick now
      :: (outcome now
            <$> newRuns s (Scheduler.step config s (Scheduler.Tick now)))
  | Timer p => [Scheduler.TimeoutFires p]
  | Cancel jobId => [Scheduler.CancelJob jobId]
  end.

Definition turnStep (s : Scheduler.JobQueue) (t : turn) : Scheduler.JobQueue :=
  foldl (Scheduler.step config) s (turnEvents s t).

Definition run (ts : list turn) : Scheduler.JobQueue :=
  foldl turnStep Scheduler.initial ts.

End Loop.
End EventLoop.

(** ** Configurations and inputs of the scenarios *)

(** Three requests per sixty seconds, and none at all. *)
Definition threePerMinute : Security.SecurityConfig :=
  {| Security.rateLimitWindow := 60; Security.rateLimitMaxRequests := 3;
     Security.allowedDirectories := ["/tmp"];
     Security.blockedExtensions := [".exe"] |}.

Definition nonePerMinute : Security.SecurityConfig :=
  {| Security.rateLimitWindow := 60; Security.rateLimitMaxRequests := 0;
     Security.allowedDirectories := ["/tmp"];
     Security.blockedExtensions := [".exe"] |}.

(** A cache of ten entries, holding file names as media info. *)
Definition tenEntries : PerformanceConfig :=
  {| enableCaching := true; cacheSize := 10;
     enableHardwareAcceleration := false;
     maxConcurrentJobs := 3; queueTimeout := 300000 |}.

Definition cacheOf (files : list string) : Cache.CacheManager string :=
  {| Cache.mediaInfoCache :=
       (λ f, (Cache.generateCacheKey f "mediaInfo",
              {| Cache.data := f; Cache.timestamp := 0;
                 Cache.accessCount := 1 |})) <$> files |}.

Definition twelveFiles : list string :=
  ["/tmp/a"; "/tmp/b"; "/tmp/c"; "/tmp/d"; "/tmp/e"; "/tmp/f";
   "/tmp/g"; "/tmp/h"; "/tmp/i"; "/tmp/j"; "/tmp/k"; "/tmp/l"].

(** Two execution slots, and the three of the default configuration. *)
Definition twoSlots : PerformanceConfig :=
  {| enableCaching := true; cacheSize := 1000;
     enableHardwareAcceleration := true;
     maxConcurrentJobs := 2; queueTimeout := 300000 |}.

Definition threeSlots : PerformanceConfig :=
  {| enableCaching := true; cacheSize := 1000;
     enableHardwareAcceleration := true;
     maxConcurrentJobs := 3; queueTimeout := 300000 |}.

(** Three submissions with priorities 1, 5 and 3. *)
Definition threeJobs : list Scheduler.event :=
  [Scheduler.AddJob "convert" ["-i"; "/tmp/a.avi"] 1 "1700000000000-a";
   Scheduler.AddJob "convert" ["-i"; "/tmp/b.avi"] 5 "1700000000001-b";
   Scheduler.AddJob "convert" ["-i"; "/tmp/c.avi"] 3 "1700000000002-c"].

Definition submitted (n : nat) (file stamp : string) (p : Z) : Scheduler.Job :=
  {| Scheduler.id := "convert-" +:+ stamp; Scheduler.type := "convert";
     Scheduler.args := ["-i"; file]; Scheduler.priority := p;
     Scheduler.startTime := None; Scheduler.promise := n |}.

(** One submission, dispatched by the tick at 1000. *)
Definition oneJob : list Scheduler.event :=
  [Scheduler.AddJob "convert" ["-i"; "/tmp/a.avi"] 0 "1700000000000-a";
   Scheduler.Tick 1000].

Definition started (n : nat) (file stamp : string) (p now : Z) : Scheduler.Job :=
  {| Scheduler.id := "convert-" +:+ stamp; Scheduler.type := "convert";
     Scheduler.args := ["-i"; file]; Scheduler.priority := p;
     Scheduler.startTime := Some now; Scheduler.promise := n |}.

(** ** utils/ffmpeg.ts: the argument list handed to the process *)
Module Executor.

(** [process.platform], as far as [detectHardwareAcceleration] tells
    the values apart. *)
Inductive platform := darwin | linux | win32 | otherPlatform.

(** ServerConfig['ffmpeg'], the fields the argument list depends on. *)
Record FFmpegConfig := {
  enableGPU : bool;
  nvidia : list string             (* hwAccelOptions.nvidia *)
}.

Section FFmpegExecutor.
Variable config : FFmpegConfig.
Variable os : platform.

Definition detectHardwareAcceleration : list string :=
  if negb (enableGPU config) then []
  else
    match os with
    | darwin => ["-hwaccel"; "videotoolbox"]
    | linux => nvidia config
    | win32 => ["-hwaccel"; "dxva2"]
    | otherPlatform => []
    end.

(** [args.findIndex(arg => arg === token)], [None] for [-1]. *)
Fixpoint findIndex (token : string) (args : list string) : option nat :=
  match args with
  | [] => None
  | arg :: rest =>
      if decide (arg = token) then Some 0%nat
      else S <$> findIndex token rest
  end.

Definition addHardwareAcceleration (args : list string) : list string :=
  if negb (enableGPU config) then args
  else
    let hwArgs := detectHardwareAcceleration in
    if decide (0 < length hwArgs)%nat then
      match findIndex "-i" args with
      | Some inputIndex =>
          if decide (0 < inputIndex)%nat
          then take inputIndex args ++ hwArgs ++ drop inputIndex args
          else args
      | None => args
      end
    else args.

(** The argument list [execute] passes to [spawn]: the arguments
    sanitised by the security manager, then hardware acceleration. *)
Definition finalArgs (security : Security.SecurityConfig)
    (resolve extnameLower : string → string) (existsSync : string → bool)
    (args : list string) : list string :=
  addHardwareAcceleration
    (Security.sanitizeFFmpegArgs security resolve extnameLower existsSync args).

End FFmpegExecutor.
End Executor.

(** ** Notions the further properties are stated with *)

(** [p] occurs in [s]. *)
Definition occursIn (p s : string) : Prop :=
  ∃ before after, s = before +:+ p +:+ after.

(** ['-i'] stands directly before ['pipe:'] somewhere in [args]. *)
Definition pipedInput (args : list string) : Prop :=
  ∃ before after, args = before ++ "-i" :: "pipe:" :: after.

(** The event is a request of [clientId], or a sweep. *)
Definition concerns (clientId : string) (e : Security.event) : bool :=
  match e with
  | Security.Request c _ => bool_decide (c = clientId)
  | Security.Sweep _ => true
  end.

Definition isRequest (e : Security.event) : bool :=
  match e with
  | Security.Request _ _ => true
  | Security.Sweep _ => false
  end.

(** The clock never runs backwards over the events. *)
Definition inTimeOrder (evs : list Security.event) : Prop :=
  StronglySorted (λ e1 e2, Security.eventTime e1 <= Security.eventTime e2) evs.

(** Two states hold the same about client [c]. *)
Definition agree (c : string) (s1 s2 : Security.SecurityManager) : Prop :=
  (c ∈ Security.blockedIPs s1 ↔ c ∈ Security.blockedIPs s2)
  ∧ Security.rateLimitMap s1 !! c = Security.rateLimitMap s2 !! c.

(** The state without sweeps, next to the state with them: the same
    block set, and the same entry for every client, or an entry that
    the sweeps removed and whose window has run out at time [T]. *)
Definition swept (config : Security.SecurityConfig) (T : Z)
    (s s' : Security.SecurityManager) : Prop :=
  Security.blockedIPs s = Security.blockedIPs s'
  ∧ ∀ k, Security.rateLimitMap s !! k = Security.rateLimitMap s' !! k
         ∨ (Security.rateLimitMap s !! k = None
            ∧ ∃ entry, Security.rateLimitMap s' !! k = Some entry
                       ∧ T - Security.windowStart entry > Security.rateLimitWindow config * 1000).

(** The cache holds at most [1.2 * cacheSize] entries, or the sweep
    removes nothing ([floor (cacheSize * 0.2) = 0]). *)
Definition withinSlack {MediaInfo : Type} (config : PerformanceConfig)
    (s : Cache.CacheManager MediaInfo) : Prop :=
  (5 * length (Cache.mediaInfoCache s) ≤ 6 * cacheSize config)%nat
  ∨ (cacheSize config / 5 = 0)%nat.

(** Every promise is accounted for: the promises of the queued jobs and
    of the dispatched jobs are all different, a queued job's promise is
    pending, and a promise that belongs to neither a queued nor a
    dispatched job is that of a job cancelled while it was queued. *)
Definition accounted (queued dispatched : list Scheduler.Job)
    (promises : list Scheduler.settlement) : Prop :=
  NoDup (Scheduler.promise <$> (queued ++ dispatched))
  ∧ (∀ job, job ∈ queued →
       promises !! Scheduler.promise job = Some Scheduler.Pending)
  ∧ (∀ job, job ∈ dispatched →
       (Scheduler.promise job < length promises)%nat)
  ∧ (∀ p, (p < length promises)%nat →
       p ∈ Scheduler.promise <$> queued
       ∨ p ∈ Scheduler.promise <$> dispatched
       ∨ promises !! p = Some (Scheduler.Rejected Scheduler.Cancelled)).

(** The running set, the suspended activations and the armed timers
    hold dispatched jobs under their own id or promise, and a running
    job has a start time and a suspended activation. *)
Definition tracked (s : Scheduler.JobQueue) : Prop :=
  (∀ jobId job, Scheduler.running s !! jobId = Some job →
     Scheduler.id job = jobId
     ∧ is_Some (Scheduler.startTime job)
     ∧ Scheduler.awaiting s !! Scheduler.promise job = Some job)
  ∧ (∀ p job, Scheduler.awaiting s !! p = Some job →
       Scheduler.promise job = p ∧ job ∈ Scheduler.dispatched s)
  ∧ (∀ p job, Scheduler.timers s !! p = Some job →
       Scheduler.promise job = p ∧ job ∈ Scheduler.dispatched s).


(** ** Inputs of the further scenarios *)

(** Acceleration enabled, with the NVIDIA flags of the default
    configuration. *)
Definition withGPU : Executor.FFmpegConfig :=
  {| Executor.enableGPU := true;
     Executor.nvidia := ["-hwaccel"; "cuda"; "-hwaccel_output_format"; "cuda"] |}.


(** * Properties *)

(** ** Argument sanitisation *)
Section SanitizeProperties.
Context (config : Security.SecurityConfig).
Context (resolve extnameLower : string → string) (existsSync : string → bool).

Local Abbreviation sanitize args :=
  (Security.sanitizeFFmpegArgs config resolve extnameLower existsSync args).
Local Abbreviation invalid arg :=
  (Security.looksLikePath arg
   && bool_decide (is_Some (Security.validateFilePath
                              config resolve extnameLower existsSync arg))).

(** Induction that follows the loop: one step or two. *)
Lemma args_ind (P : list string → Prop) :
  P [] →
  (∀ arg, P [arg]) →
  (∀ arg next rest, P rest → P (next :: rest) → P (arg :: next :: rest)) →
  ∀ args, P args.
Proof.
  intros Hnil Hone Hstep args.
  cut (P args ∧ ∀ arg, P (arg :: args)); [tauto|].
  induction args as [|next rest [IH1 IH2]]; split; auto.
Qed.

Lemma sanitize_dangerous arg rest :
  arg ∈ Security.dangerousFlags → sanitize (arg :: rest) = sanitize rest.
Proof. intros H. simpl. by rewrite bool_decide_eq_true_2. Qed.

Lemma sanitize_pipe rest :
  sanitize ("-i" :: "pipe:" :: rest) = sanitize rest.
Proof. reflexivity. Qed.

Lemma sanitize_other arg rest :
  arg ∉ Security.dangerousFlags →
  (arg ≠ "-i" ∨ head rest ≠ Some "pipe:") →
  sanitize (arg :: rest)
  = if invalid arg then sanitize rest else arg :: sanitize rest.
Proof.
  intros Hd Hp. simpl. rewrite (bool_decide_eq_false_2 _ Hd).
  destruct rest as [|next rest']; [done|].
  destruct Hp as [Hp|Hp].
  - by rewrite (bool_decide_eq_false_2 _ Hp).
  - rewrite (bool_decide_eq_false_2 (next = "pipe:")); [|naive_solver].
    by rewrite andb_false_r.
Qed.

Lemma sanitize_no_dangerous args tok :
  tok ∈ Security.dangerousFlags → tok ∉ sanitize args.
Proof.
  intros Hd.
  induction args as [|arg|arg next rest IH1 IH2] using args_ind.
  - simpl. set_solver.
  - destruct (decide (arg ∈ Security.dangerousFlags)) as [Ha|Ha].
    { rewrite sanitize_dangerous by done. set_solver. }
    rewrite sanitize_other; [|done|by right].
    case_match; [set_solver|].
    apply not_elem_of_cons; split; [congruence|set_solver].
  - destruct (decide (arg ∈ Security.dangerousFlags)) as [Ha|Ha].
    { by rewrite sanitize_dangerous. }
    destruct (decide (arg = "-i" ∧ next = "pipe:")) as [[-> ->]|Hp].
    { by rewrite sanitize_pipe. }
    rewrite sanitize_other; [|done|].
    2:{ simpl. destruct (decide (arg = "-i")); [right|left]; naive_solver. }
    case_match; [done|].
    apply not_elem_of_cons; split; [congruence|done].
Qed.

(** C10.  Every token that is one of '-f', 'lavfi',
    '-protocol_whitelist', '-safe', '0', 'concat' is dropped by
    [sanitizeFFmpegArgs] wherever it stands, so the output holds none
    of them; and the media-info tool's argv
    ['-i', path, '-f', 'null', '-'] comes out as what is left of
    ['-i', path] followed by 'null' and '-': its '-f' is lost and the
    output differs from the input. *)
Theorem sanitize_drops_flag_tokens :
  let sanitizeFFmpegArgs :=
    Security.sanitizeFFmpegArgs config resolve extnameLower existsSync in
  (∀ args tok,
     tok ∈ ["-f"; "lavfi"; "-protocol_whitelist"; "-safe"; "0"; "concat"] →
     tok ∉ sanitizeFFmpegArgs args)
  ∧ (∀ path,
       let argv := ["-i"; path; "-f"; "null"; "-"] in
       sanitizeFFmpegArgs argv
       = sanitizeFFmpegArgs ["-i"; path] ++ ["null"; "-"]
       ∧ ("-f" ∉ sanitizeFFmpegArgs argv)
       ∧ sanitizeFFmpegArgs argv ≠ argv).
Proof.
  intros sanitizeFFmpegArgs. subst sanitizeFFmpegArgs. split.
  - intros args tok Htok. apply sanitize_no_dangerous.
    unfold Security.dangerousFlags.
    repeat (apply elem_of_cons in Htok as [->|Htok];
            [by apply (bool_decide_unpack _)|]).
    by apply elem_of_nil in Htok.
  - intros path argv.
    assert (Hf : "-f" ∉ sanitize argv).
    { apply sanitize_no_dangerous. by apply (bool_decide_unpack _). }
    assert (Hi : "-i" ∉ Security.dangerousFlags).
    { by apply (bool_decide_unpack _). }
    split; [|split; [done|]].
    + subst argv.
      destruct (decide (path = "pipe:")) as [->|Hp]; [reflexivity|].
      rewrite !(sanitize_other "-i"); [|done|right; simpl; congruence|done|right; simpl; congruence].
      change (invalid "-i") with false. cbv iota. f_equal.
      destruct (decide (path ∈ Security.dangerousFlags)) as [Hd|Hd].
      { rewrite !(sanitize_dangerous path) by done. reflexivity. }
      rewrite !(sanitize_other path); [|done|by right|done|by right].
      change (sanitize ("-f" :: "null" :: "-" :: [])) with ["null"; "-"].
      change (sanitize []) with (@nil string).
      by case_match.
    + intros Heq. rewrite Heq in Hf. subst argv.
      apply Hf. do 2 constructor 2. constructor 1.
Qed.

(** C5 (where the code departs from it).  On ['-i', '-f', 'pipe:']
    the '-i' is kept because the token after it is '-f', the '-f' is
    dropped, and 'pipe:' is kept: the output is the piped-input
    directive ['-i', 'pipe:']. *)
Theorem sanitize_leaves_piped_input :
  Security.sanitizeFFmpegArgs config resolve extnameLower existsSync
    ["-i"; "-f"; "pipe:"]
  = ["-i"; "pipe:"].
Proof. reflexivity. Qed.

End SanitizeProperties.

(** ** Rate limiter *)
Section RateLimitProperties.
Import Security.
Context (config : SecurityConfig).

Local Abbreviation window := (rateLimitWindow config * 1000).
Local Abbreviation limit := (rateLimitMaxRequests config).
Local Abbreviation check := (checkRateLimit config).
Local Abbreviation step := (Security.step config).
Local Abbreviation run := (Security.run config).
Local Abbreviation answers c evs s := (Security.answers config c evs s).

Lemma answers_app c evs evs' s :
  answers c (evs ++ evs') s = answers c evs s ++ answers c evs' (run evs s).
Proof.
  revert s. induction evs as [|e evs IH]; intros s; [done|].
  simpl. destruct e as [c' now|now]; [case_decide|]; simpl;
    by rewrite IH.
Qed.

Lemma requestsBy_app c evs evs' :
  requestsBy c (evs ++ evs') = (requestsBy c evs + requestsBy c evs')%nat.
Proof.
  induction evs as [|[c' now|now] evs IH]; simpl; [done| |done].
  case_decide; simpl; by rewrite IH.
Qed.

Lemma blocked_step c s e : c ∈ blockedIPs s → c ∈ blockedIPs (step s e).
Proof.
  intros Hb. destruct e as [c' now|now]; simpl; [|done].
  unfold checkRateLimit. repeat case_match; simpl; set_solver.
Qed.

Lemma blocked_check c now s : c ∈ blockedIPs s → (check now c s).1 = false.
Proof. intros Hb. unfold checkRateLimit. by rewrite decide_True. Qed.

(** Once blocked, always blocked and always denied. *)
Lemma blocked_forever c evs s :
  c ∈ blockedIPs s →
  c ∈ blockedIPs (run evs s)
  ∧ answers c evs s = replicate (requestsBy c evs) false.
Proof.
  revert s. induction evs as [|e evs IH]; intros s Hb; [done|].
  destruct (IH (step s e) (blocked_step c s e Hb)) as [IH1 IH2].
  split; [done|].
  destruct e as [c' now|now]; simpl; [|done].
  case_decide as Hc; [|done]. subst c'.
  rewrite blocked_check by done. simpl. by f_equal.
Qed.

Lemma counting_other c t1 k s c' now :
  c' ≠ c → counting c t1 k s → counting c t1 k (check now c' s).2.
Proof.
  intros Hne [Hb Hm]. unfold checkRateLimit, counting.
  repeat case_match; simpl; rewrite ?lookup_insert_ne by done;
    (split; [|done]); try done.
  rewrite elem_of_union, elem_of_singleton. intros [?|?]; [congruence|done].
Qed.

Lemma counting_sweep c t1 k s now :
  now - t1 ≤ window → counting c t1 k s →
  counting c t1 k (cleanupRateLimitMap config now s).
Proof.
  intros Ht [Hb Hm]. split; [done|]. simpl.
  apply map_lookup_filter_Some. split; [done|]. simpl. lia.
Qed.

Lemma counting_request_below c t1 k s now :
  now - t1 ≤ window → (S k ≤ limit)%nat → counting c t1 k s →
  (check now c s).1 = true ∧ counting c t1 (S k) (check now c s).2.
Proof.
  intros Ht Hk [Hb Hm]. unfold checkRateLimit, counting.
  rewrite decide_False by done. rewrite Hm. simpl.
  rewrite decide_False by lia. rewrite decide_False by lia. simpl.
  by rewrite lookup_insert_eq.
Qed.

Lemma counting_request_at_limit c t1 s now :
  now - t1 ≤ window → counting c t1 limit s →
  (check now c s).1 = false ∧ c ∈ blockedIPs (check now c s).2.
Proof.
  intros Ht [Hb Hm]. unfold checkRateLimit.
  rewrite decide_False by done. rewrite Hm. simpl.
  rewrite decide_False by lia. rewrite decide_True by lia. simpl.
  split; [done|set_solver].
Qed.

Lemma counting_first c now s :
  c ∉ blockedIPs s → opensWindow config now c s →
  (check now c s).1 = true ∧ counting c now 1 (check now c s).2.
Proof.
  intros Hb Hopen. unfold checkRateLimit, counting, opensWindow in *.
  rewrite decide_False by done.
  destruct (rateLimitMap s !! c) as [entry|]; simpl.
  - rewrite decide_True by done. simpl. by rewrite lookup_insert_eq.
  - by rewrite lookup_insert_eq.
Qed.

(** With [k] requests counted in the open window, the next
    [limit - k] requests inside the window are admitted and the one
    after them is denied, for good. *)
Lemma counting_run c t1 within :
  Forall (λ e, eventTime e - t1 ≤ window) within →
  ∀ k s later,
    (k ≤ limit)%nat → counting c t1 k s →
    requestsBy c within = S (limit - k) →
    c ∈ blockedIPs (run (within ++ later) s)
    ∧ answers c (within ++ later) s
      = replicate (limit - k) true
        ++ replicate (S (requestsBy c later)) false.
Proof.
  induction 1 as [|e within Ht _ IH]; intros k s later Hk Hc Hn; [done|].
  destruct e as [c' now|now]; simpl in Ht, Hn.
  - destruct (decide (c' = c)) as [->|Hne].
    + injection Hn as Hn.
      destruct (decide (k = limit)) as [->|Hlt].
      * destruct (counting_request_at_limit c t1 s now Ht Hc) as [Ha Hb].
        destruct (blocked_forever c (within ++ later) _ Hb) as [Hb' Ha'].
        split; [done|]. simpl. rewrite decide_True by done.
        rewrite Ha, Ha', requestsBy_app, Hn.
        by replace (limit - limit)%nat with 0%nat by lia.
      * destruct (counting_request_below c t1 k s now Ht ltac:(lia) Hc)
          as [Ha Hc'].
        destruct (IH (S k) _ later ltac:(lia) Hc' ltac:(lia)) as [Hb' Ha'].
        split; [done|]. simpl. rewrite decide_True by done.
        rewrite Ha, Ha'.
        by replace (limit - k)%nat with (S (limit - S k)) by lia.
    + destruct (IH k _ later Hk (counting_other c t1 k s c' now Hne Hc) Hn)
        as [Hb' Ha'].
      split; [done|]. simpl. by rewrite decide_False by done.
  - by destruct (IH k _ later Hk (counting_sweep c t1 k s now Ht Hc) Hn).
Qed.

(** C4 (amended).  For a configured maximum of at least one: when a
    request at [t1] of a client that is not blocked opens a window (the
    client is new, or its previous window has run out), then, as long as
    requests and sweeps stay inside the window, the first [limit]
    requests of the client are admitted and request [limit + 1] is
    denied and puts the client into the block set; whatever happens
    later, at whatever time (requests of anyone, sweeps), the client
    stays in the block set and each of its requests is denied. *)
Theorem rate_limit_blocks_for_good c t1 within later s :
  (1 ≤ rateLimitMaxRequests config)%nat →
  c ∉ blockedIPs s → opensWindow config t1 c s →
  Forall (λ e, eventTime e - t1 ≤ rateLimitWindow config * 1000) within →
  requestsBy c within = rateLimitMaxRequests config →
  let evs := Request c t1 :: within ++ later in
  Security.answers config c evs s
  = replicate (rateLimitMaxRequests config) true
    ++ replicate (S (requestsBy c later)) false
  ∧ c ∈ blockedIPs (Security.run config evs s).
Proof.
  intros Hl Hb Hopen Ht Hn evs.
  destruct (counting_first c t1 s Hb Hopen) as [Ha Hc].
  destruct (counting_run c t1 within Ht 1 _ later Hl Hc ltac:(lia))
    as [Hb' Ha'].
  subst evs. simpl. rewrite decide_True by done.
  split; [|done]. rewrite Ha, Ha'.
  destruct (rateLimitMaxRequests config) as [|n]; [lia|].
  simpl. by rewrite Nat.sub_0_r.
Qed.

End RateLimitProperties.

(** The scenario of the specification: requests 1 to 3 of client X are
    admitted, request 4 is denied, and request 5, more than a window
    later and after a sweep, is denied as well. *)
Lemma rate_limit_blocks_for_good_witness :
  let evs := [Security.Request "X" 0; Security.Request "X" 1000;
              Security.Request "Y" 1500; Security.Request "X" 2000;
              Security.Request "X" 3000;
              Security.Sweep 120000; Security.Request "X" 125000] in
  Security.answers threePerMinute "X" evs Security.initial
  = [true; true; true; false; false]
  ∧ "X" ∈ Security.blockedIPs (Security.run threePerMinute evs Security.initial).
Proof.
  apply (rate_limit_blocks_for_good threePerMinute "X" 0
           [Security.Request "X" 1000; Security.Request "Y" 1500;
            Security.Request "X" 2000; Security.Request "X" 3000]
           [Security.Sweep 120000; Security.Request "X" 125000]
           Security.initial).
  - simpl. lia.
  - apply not_elem_of_empty.
  - exact I.
  - repeat constructor; simpl; lia.
  - reflexivity.
Defined.

(** A window that has run out is opened anew by the next request: after
    a first request at 0, the request at 70 s starts the window in
    which the fourth request is denied. *)
Example rate_limit_after_restart :
  Security.answers threePerMinute "X"
    [Security.Request "X" 0; Security.Request "X" 70000;
     Security.Request "X" 80000; Security.Request "X" 90000;
     Security.Request "X" 100000; Security.Request "X" 500000]
    Security.initial
  = [true; true; true; true; false; false].
Proof. reflexivity. Qed.

(** C4 (as stated) fails for a maximum of zero: the first request of a
    client is request number [0 + 1], and it is admitted. *)

Lemma rate_limit_zero_admits_first :
  Security.answers nonePerMinute "X" [Security.Request "X" 0] Security.initial
  = [true].
Proof. reflexivity. Qed.

(** ** Sorting *)
Section JsSortProperties.
Context {A : Type} (cmp : A → A → Z).

Lemma js_insert_perm x l : js_insert cmp x l ≡ₚ x :: l.
Proof.
  induction l as [|y l IH]; simpl; [done|].
  case_match; [done|]. rewrite IH. apply perm_swap.
Qed.

Lemma js_sort_perm l : js_sort cmp l ≡ₚ l.
Proof.
  induction l as [|x l IH]; simpl; [done|].
  by rewrite js_insert_perm, IH.
Qed.

Lemma js_sort_length l : length (js_sort cmp l) = length l.
Proof. by rewrite js_sort_perm. Qed.
End JsSortProperties.

(** ** Result cache *)
Section CacheProperties.
Import Cache.
Context {MediaInfo : Type} (config : PerformanceConfig).

Local Abbreviation CacheManager := (Cache.CacheManager MediaInfo).
Local Abbreviation CacheEntry := (Cache.CacheEntry MediaInfo).
Local Abbreviation key filePath := (generateCacheKey filePath "mediaInfo").

Implicit Types (m : list (string * CacheEntry)) (s : CacheManager).
Implicit Types (evs : list (Cache.event MediaInfo)).

Lemma map_get_delete k m : map_get k (map_delete k m) = None.
Proof.
  induction m as [|[k' v] m IH]; [done|].
  unfold map_delete in *. rewrite filter_cons. simpl.
  case_decide; [|done]. simpl. by rewrite decide_False.
Qed.

Lemma map_delete_keys k m : (map_delete k m).*1 = filter (λ k', k' ≠ k) m.*1.
Proof.
  induction m as [|[k' v] m IH]; [done|].
  unfold map_delete in *. rewrite fmap_cons, !filter_cons. simpl.
  case_decide; rewrite ?fmap_cons, IH; done.
Qed.

Lemma map_delete_wf k m : map_wf m → map_wf (map_delete k m).
Proof. unfold map_wf. rewrite map_delete_keys. apply NoDup_filter. Qed.

Lemma map_delete_length k m :
  map_wf m → k ∈ m.*1 → S (length (map_delete k m)) = length m.
Proof.
  unfold map_wf, map_delete.
  induction m as [|[k' v] m IH]; intros Hwf Hin.
  - by apply elem_of_nil in Hin.
  - rewrite fmap_cons in Hwf, Hin. apply NoDup_cons in Hwf as [Hk' Hwf].
    rewrite filter_cons. simpl. case_decide as Hk.
    + simpl. f_equal. apply IH; [done|].
      apply elem_of_cons in Hin as [->|Hin]; done.
    + simpl in Hk. subst k'. f_equal.
      clear IH Hin Hwf. induction m as [|[k'' v''] m IH]; [done|].
      rewrite fmap_cons in Hk'. apply not_elem_of_cons in Hk' as [Hne Hk'].
      rewrite filter_cons. simpl. rewrite decide_True by done.
      simpl. f_equal. by apply IH.
Qed.

(** Deleting the keys of [l], all different and all present, shrinks
    the map by the length of [l]. *)
Lemma foldl_delete_length (l : list (string * CacheEntry)) m :
  map_wf m → NoDup l.*1 → l.*1 ⊆ m.*1 →
  (length (foldl (λ m kv, map_delete kv.1 m) m l) + length l = length m)%nat.
Proof.
  revert m. induction l as [|[k v] l IH]; intros m Hwf Hl Hsub; simpl.
  - lia.
  - rewrite fmap_cons in Hl, Hsub. apply NoDup_cons in Hl as [Hk Hl].
    rewrite Nat.add_succ_r, IH.
    + apply map_delete_length; [done|]. apply Hsub. by left.
    + by apply map_delete_wf.
    + done.
    + intros k' Hk'. rewrite map_delete_keys. apply list_elem_of_filter.
      split; [by intros ->|]. apply Hsub. by right.
Qed.

Lemma cleanupCache_length now s :
  map_wf (mediaInfoCache s) →
  length (mediaInfoCache (cleanupCache config now s))
  = if decide (length (mediaInfoCache s) ≤ cacheSize config)%nat
    then length (mediaInfoCache s)
    else (length (mediaInfoCache s) - cacheSize config / 5)%nat.
Proof.
  intros Hwf. unfold cleanupCache, toRemoveCount, maxSize.
  case_decide as Hsize; [done|]. cbn [mediaInfoCache].
  pose proof (js_sort_perm (scoreDifference now) (mediaInfoCache s)) as Hperm.
  pose proof (js_sort_length (scoreDifference now) (mediaInfoCache s)) as Hlen.
  revert Hperm Hlen.
  generalize (js_sort (scoreDifference now) (mediaInfoCache s)).
  intros sorted Hperm Hlen.
  assert (Hkeys : sorted.*1 ≡ₚ (mediaInfoCache s).*1)
    by by apply fmap_Permutation.
  assert (Hsub : sublist (take (cacheSize config / 5) sorted).*1 sorted.*1)
    by apply fmap_sublist, sublist_take.
  assert (cacheSize config / 5 ≤ cacheSize config)%nat
    by (apply Nat.Div0.div_le_upper_bound; lia).
  pose proof (foldl_delete_length
                (take (cacheSize config / 5) sorted) (mediaInfoCache s)) as Hdel.
  rewrite length_take, Hlen in Hdel.
  revert Hdel Hsub H. generalize (cacheSize config / 5)%nat.
  intros n Hdel Hsub Hn.
  enough ((length (foldl (λ m kv, map_delete kv.1 m) (mediaInfoCache s)
                    (take n sorted))
           + n `min` length (mediaInfoCache s)
           = length (mediaInfoCache s))%nat) by lia.
  apply Hdel; [done| |].
  - eapply sublist_NoDup; [|done]. unfold map_wf in Hwf. by rewrite Hkeys.
  - intros k Hk. rewrite <-Hkeys. by eapply elem_of_sublist.
Qed.

(** C6 (amended).  A sweep that finds more than [cacheSize] entries
    removes exactly [floor (cacheSize * 0.2)] of them, and a sweep
    that finds at most [cacheSize] removes none; so the size after the
    sweep is at most [cacheSize] whenever the size before it was at
    most [cacheSize + floor (cacheSize * 0.2)]. *)
Theorem cleanupCache_size now s :
  map_wf (mediaInfoCache s) →
  let before := length (mediaInfoCache s) in
  let after := length (mediaInfoCache (cleanupCache config now s)) in
  after = (if decide (before ≤ cacheSize config)%nat then before
           else before - cacheSize config / 5)%nat
  ∧ ((before ≤ cacheSize config + cacheSize config / 5)%nat →
     (after ≤ cacheSize config)%nat).
Proof.
  intros Hwf before after. subst before after.
  rewrite cleanupCache_length by done.
  split; [done|]. case_decide; lia.
Qed.

Lemma map_set_keys k (v : CacheEntry) m k' :
  k' ∈ (map_set k v m).*1 → k' = k ∨ k' ∈ m.*1.
Proof.
  induction m as [|[k0 v0] m IH]; simpl.
  - intros Hin. apply list_elem_of_singleton in Hin. by left.
  - case_decide as Hk; rewrite !fmap_cons, !elem_of_cons; simpl.
    + intros [->|Hin]; [by left|right; by right].
    + intros [->|Hin]; [right; by left|].
      destruct (IH Hin) as [->|Hin']; [by left|right; by right].
Qed.

Lemma map_set_wf k (v : CacheEntry) m : map_wf m → map_wf (map_set k v m).
Proof.
  unfold map_wf. induction m as [|[k0 v0] m IH]; intros Hwf.
  - apply NoDup_singleton.
  - rewrite fmap_cons in Hwf. apply NoDup_cons in Hwf as [Hk0 Hwf].
    simpl. case_decide as Hk; rewrite fmap_cons; simpl.
    + subst k0. by apply NoDup_cons.
    + apply NoDup_cons. split; [|by apply IH].
      intros Hin. apply map_set_keys in Hin as [->|Hin]; done.
Qed.

Lemma foldl_delete_wf (l : list (string * CacheEntry)) m :
  map_wf m → map_wf (foldl (λ m kv, map_delete kv.1 m) m l).
Proof.
  revert m. induction l as [|kv l IH]; intros m Hwf; [done|].
  simpl. apply IH. by apply map_delete_wf.
Qed.

Lemma cleanupCache_wf now s :
  map_wf (mediaInfoCache s) →
  map_wf (mediaInfoCache (cleanupCache config now s)).
Proof.
  intros Hwf. unfold cleanupCache. case_decide; [done|].
  by apply foldl_delete_wf.
Qed.

(** The cache is a map in every state it reaches. *)
Lemma run_wf evs : map_wf (mediaInfoCache (Cache.run config evs)).
Proof.
  unfold Cache.run. induction evs as [|e evs IH] using rev_ind.
  - apply NoDup_nil_2.
  - rewrite foldl_app. simpl. destruct e; simpl.
    + unfold getMediaInfo. repeat case_match; simpl; try done.
      * by apply map_delete_wf.
      * by apply map_set_wf.
      * by apply map_delete_wf.
    + unfold setMediaInfo. case_match; [done|].
      case_decide; [apply cleanupCache_wf|]; by apply map_set_wf.
    + by apply map_delete_wf.
    + by apply cleanupCache_wf.
    + apply NoDup_nil_2.
Qed.

(** With caching disabled nothing is ever stored. *)
Lemma disabled_empty evs :
  enableCaching config = false →
  mediaInfoCache (Cache.run config evs) = [].
Proof.
  intros Hoff. unfold Cache.run.
  induction evs as [|e evs IH] using rev_ind; [done|].
  rewrite foldl_app. simpl.
  destruct e; simpl.
  - unfold getMediaInfo. by rewrite Hoff.
  - unfold setMediaInfo. by rewrite Hoff.
  - by rewrite IH.
  - unfold cleanupCache. case_decide as Hsize; [done|].
    rewrite IH in Hsize. simpl in Hsize. lia.
  - done.
Qed.

(** C3.  In every state the cache reaches, [getMediaInfo] returns data
    only from an entry whose file exists with a modification time not
    newer than the entry's timestamp; and when the entry under the key
    is stale (the file is gone, or its modification time is strictly
    newer than the timestamp) the call reports a miss and leaves no
    entry under the key. *)
Theorem getMediaInfo_never_stale evs statSync filePath :
  let s := Cache.run config evs in
  let answer := getMediaInfo config statSync filePath s in
  (∀ info, answer.1 = Some info →
     ∃ entry mtime,
       map_get (key filePath) (mediaInfoCache s) = Some entry
       ∧ data entry = info
       ∧ statSync filePath = Some mtime
       ∧ mtime <= timestamp entry)
  ∧ (∀ entry,
       map_get (key filePath) (mediaInfoCache s) = Some entry →
       (statSync filePath = None
        ∨ ∃ mtime, statSync filePath = Some mtime ∧ mtime > timestamp entry) →
       answer.1 = None
       ∧ map_get (key filePath) (mediaInfoCache answer.2) = None).
Proof.
  intros s answer. subst answer. unfold getMediaInfo. split.
  - intros info. destruct (enableCaching config); simpl; [|done].
    destruct (map_get _ _) as [entry|]; [|done].
    destruct (statSync filePath) as [mtime|]; [|done].
    case_decide; simpl; [done|]. intros [= <-].
    exists entry, mtime. repeat split; (done || lia).
  - intros entry Hget Hstale.
    destruct (enableCaching config) eqn:Hon; simpl.
    + rewrite Hget. destruct Hstale as [->|(mtime & -> & Hnewer)].
      * simpl. by rewrite map_get_delete.
      * rewrite decide_True by done. simpl. by rewrite map_get_delete.
    + subst s. by rewrite disabled_empty in Hget.
Qed.

End CacheProperties.

Lemma cleanupCache_size_witness :
  let s := cacheOf twelveFiles in
  Cache.map_wf (Cache.mediaInfoCache s)
  ∧ length (Cache.mediaInfoCache (Cache.cleanupCache tenEntries 13 s)) = 10%nat
  ∧ (length (Cache.mediaInfoCache (Cache.cleanupCache tenEntries 13 s)) ≤ 10)%nat.
Proof.
  intros s.
  assert (Hwf : Cache.map_wf (Cache.mediaInfoCache s)).
  { apply (bool_decide_unpack _). by vm_compute. }
  split; [exact Hwf|].
  destruct (cleanupCache_size tenEntries 13 s Hwf) as [Hsize Hbound].
  split; [exact Hsize|]. apply Hbound. simpl. lia.
Defined.

(** C6 (as stated) fails.  Thirteen entries in a cache of ten: the
    thirteenth insertion is the first to exceed [cacheSize * 1.2] and
    runs the sweep, which removes [floor (10 * 0.2) = 2] entries and
    leaves eleven. *)
Lemma sweep_leaves_eleven_of_ten :
  let s := cacheOf (twelveFiles ++ ["/tmp/m"]) in
  ¬ (length (Cache.mediaInfoCache (Cache.cleanupCache tenEntries 13 s))
     ≤ cacheSize tenEntries)%nat.
Proof. vm_compute. lia. Qed.

(** The same state as the cache reaches it: thirteen insertions. *)
Example thirteen_insertions :
  length (Cache.mediaInfoCache
            (Cache.run tenEntries
               ((λ f, Cache.Set_ 0 f f) <$> (twelveFiles ++ ["/tmp/m"]))))
  = 11%nat.
Proof. reflexivity. Qed.

Lemma getMediaInfo_never_stale_witness :
  let s := Cache.run tenEntries [Cache.Set_ 100 "/tmp/a" "h264"] in
  let answer := Cache.getMediaInfo tenEntries (λ _, Some 200) "/tmp/a" s in
  answer.1 = None
  ∧ Cache.map_get (Cache.generateCacheKey "/tmp/a" "mediaInfo")
      (Cache.mediaInfoCache answer.2) = None.
Proof.
  apply (proj2 (getMediaInfo_never_stale tenEntries
                  [Cache.Set_ 100 "/tmp/a" "h264"] (λ _, Some 200) "/tmp/a")
           {| Cache.data := "h264"; Cache.timestamp := 100;
              Cache.accessCount := 1 |}).
  - reflexivity.
  - right. exists 200. split; [reflexivity|simpl; lia].
Defined.

(** ** Job scheduler *)
Section SchedulerProperties.
Import Scheduler.
Context (config : PerformanceConfig).

Local Abbreviation ceiling := (maxConcurrentJobs config).
Local Abbreviation step := (Scheduler.step config).
Local Abbreviation processQueue := (Scheduler.processQueue config).

Implicit Types (s : JobQueue) (q : list Job) (e : event) (evs : list event).

(** *** The concurrency ceiling *)

Lemma size_insert_le (m : gmap string Job) k v :
  (size (<[k := v]> m) ≤ S (size m))%nat.
Proof. rewrite map_size_insert. destruct (m !! k); simpl; lia. Qed.

Lemma size_delete_le (m : gmap string Job) k :
  (size (delete k m) ≤ size m)%nat.
Proof. rewrite map_size_delete. destruct (m !! k); simpl; lia. Qed.

Lemma processQueue_running now s :
  (size (running s) ≤ ceiling)%nat →
  (size (running (processQueue now s)) ≤ ceiling)%nat.
Proof.
  intros Hle. unfold Scheduler.processQueue.
  case_decide as Hfull; [done|]. case_decide; [done|].
  destruct (js_sort byPriority (queue s)) as [|job rest]; [done|].
  simpl. pose proof (size_insert_le (running s) (id job)
    {| id := id job; type := type job; args := args job;
       priority := priority job; startTime := Some now;
       promise := promise job |}).
  lia.
Qed.

Lemma step_running s e :
  (size (running s) ≤ ceiling)%nat →
  (size (running (step s e)) ≤ ceiling)%nat.
Proof.
  intros Hle. destruct e as [ty a pr st|now|p now r|p msg|p|jobId]; simpl.
  - done.
  - by apply processQueue_running.
  - destruct (awaiting s !! p) as [job|]; [|done]. simpl.
    pose proof (size_delete_le (running s) (id job)). lia.
  - destruct (awaiting s !! p) as [job|]; [|done]. simpl.
    pose proof (size_delete_le (running s) (id job)). lia.
  - destruct (timers s !! p) as [job|]; [|done]. simpl.
    pose proof (size_delete_le (running s) (id job)). lia.
  - unfold cancelJob.
    destruct (removeFirst jobId (queue s)) as [[job q]|]; [done|].
    destruct (running s !! jobId); [|done]. simpl.
    pose proof (size_delete_le (running s) jobId). lia.
Qed.

(** C1.  Whatever is submitted, cancelled, reported by the executor
    or timed out, and whenever the ticks come, the running set never
    holds more jobs than [maxConcurrentJobs]; and a tick changes
    nothing (admits no job) unless the running set is strictly below
    the ceiling. *)
Theorem running_never_exceeds_ceiling :
  (∀ evs,
     (size (running (Scheduler.run config evs)) ≤ maxConcurrentJobs config)%nat)
  ∧ (∀ now s,
       Scheduler.processQueue config now s ≠ s →
       (size (running s) < maxConcurrentJobs config)%nat).
Proof.
  split.
  - intros evs. unfold Scheduler.run.
    induction evs as [|e evs IH] using rev_ind.
    + simpl. rewrite map_size_empty. lia.
    + rewrite foldl_app. simpl. by apply step_running.
  - intros now s Hchanged. unfold Scheduler.processQueue in Hchanged.
    case_decide; [done|lia].
Qed.

(** *** Dispatch order *)

Lemma js_insert_descending x q :
  StronglySorted byDescendingPriority q →
  StronglySorted byDescendingPriority (js_insert byPriority x q).
Proof.
  induction q as [|y q IH]; intros Hq; simpl.
  - by repeat constructor.
  - apply StronglySorted_cons in Hq as [Hy Hq].
    unfold byPriority at 1. case_match eqn:Hcmp.
    + apply Z.leb_le in Hcmp.
      apply StronglySorted_cons. split.
      * constructor; [unfold byDescendingPriority; lia|].
        eapply Forall_impl; [exact Hy|].
        unfold byDescendingPriority. intros z ?. lia.
      * by apply StronglySorted_cons.
    + apply Z.leb_gt in Hcmp.
      apply StronglySorted_cons. split; [|by apply IH].
      rewrite js_insert_perm. constructor; [|done].
      unfold byDescendingPriority. lia.
Qed.

Lemma js_sort_descending q :
  StronglySorted byDescendingPriority (js_sort byPriority q).
Proof.
  induction q as [|x q IH]; simpl; [constructor|].
  by apply js_insert_descending.
Qed.

Lemma js_insert_stable x q :
  Forall (inSubmissionOrder x) q →
  StronglySorted inSubmissionOrder q →
  StronglySorted inSubmissionOrder (js_insert byPriority x q).
Proof.
  induction q as [|y q IH]; intros Hx Hq; simpl.
  - by repeat constructor.
  - apply StronglySorted_cons in Hq as [Hy Hq].
    apply Forall_cons in Hx as [Hxy Hx].
    unfold byPriority at 1. case_match eqn:Hcmp.
    + apply StronglySorted_cons. split; [by constructor|].
      by apply StronglySorted_cons.
    + apply Z.leb_gt in Hcmp.
      apply StronglySorted_cons. split; [|by apply IH].
      rewrite js_insert_perm. constructor; [|done].
      unfold inSubmissionOrder. lia.
Qed.

(** The sort is stable: it keeps submission order within a priority. *)
Lemma js_sort_stable q :
  StronglySorted inSubmissionOrder q →
  StronglySorted inSubmissionOrder (js_sort byPriority q).
Proof.
  induction q as [|x q IH]; intros Hq; simpl; [constructor|].
  apply StronglySorted_cons in Hq as [Hx Hq].
  apply js_insert_stable; [|by apply IH].
  by rewrite js_sort_perm.
Qed.

Lemma removeFirst_sublist jobId q job q' :
  removeFirst jobId q = Some (job, q') → q' `sublist_of` q.
Proof.
  revert job q'. induction q as [|x q IH]; intros job q'; simpl; [done|].
  case_decide.
  - intros [= <- <-]. by apply sublist_cons.
  - destruct (removeFirst jobId q) as [[found q'']|]; [|done].
    intros [= <- <-]. apply sublist_skip. by eapply IH.
Qed.

Lemma StronglySorted_sublist {A} (R : A → A → Prop) (l k : list A) :
  l `sublist_of` k → StronglySorted R k → StronglySorted R l.
Proof.
  induction 1 as [|x l k Hsub IH|x l k Hsub IH]; intros Hk; [done| |].
  - apply StronglySorted_cons in Hk as [Hx Hk].
    apply StronglySorted_cons. split; [|by apply IH].
    eapply Forall_forall. intros y Hy.
    eapply Forall_forall in Hx; [done|]. by eapply elem_of_sublist.
  - apply StronglySorted_cons in Hk as [_ Hk]. by apply IH.
Qed.

Lemma settle_length p v ps : length (settle p v ps) = length ps.
Proof.
  unfold settle. destruct (ps !! p) as [[]|]; try done.
  by rewrite length_insert.
Qed.

Lemma step_queueOrdered s e : queueOrdered s → queueOrdered (step s e).
Proof.
  intros [Hs Hp]. unfold queueOrdered.
  destruct e as [ty a pr st|now|p now r|p msg|p|jobId]; simpl.
  - split.
    + apply StronglySorted_app. split; [|split; [done|by repeat constructor]].
      intros x y Hx Hy. apply list_elem_of_singleton in Hy as ->.
      eapply Forall_forall in Hp; [|done].
      unfold inSubmissionOrder. simpl. lia.
    + rewrite length_app. simpl. apply Forall_app. split.
      * eapply Forall_impl; [done|]. simpl. intros; lia.
      * repeat constructor. simpl. lia.
  - unfold Scheduler.processQueue.
    case_decide; [done|]. case_decide; [done|].
    pose proof (js_sort_perm byPriority (queue s)) as Hperm.
    pose proof (js_sort_stable (queue s) Hs) as Hstable.
    destruct (js_sort byPriority (queue s)) as [|job rest]; [done|].
    simpl. rewrite <-Hperm in Hp.
    apply StronglySorted_cons in Hstable as [_ Hstable].
    apply Forall_cons in Hp as [_ Hp]. done.
  - destruct (awaiting s !! p) as [job|]; [|done]. simpl.
    by rewrite settle_length.
  - destruct (awaiting s !! p) as [job|]; [|done]. simpl.
    by rewrite settle_length.
  - destruct (timers s !! p) as [job|]; [|done]. simpl.
    by rewrite settle_length.
  - unfold cancelJob.
    destruct (removeFirst jobId (queue s)) as [[job q]|] eqn:Hrm.
    + simpl. rewrite settle_length.
      apply removeFirst_sublist in Hrm. split.
      * by eapply StronglySorted_sublist.
      * eapply Forall_forall. intros x Hx.
        eapply Forall_forall in Hp; [done|]. by eapply elem_of_sublist.
    + destruct (running s !! jobId); [|done]. simpl.
      by rewrite settle_length.
Qed.

Lemma run_queueOrdered evs : queueOrdered (Scheduler.run config evs).
Proof.
  unfold Scheduler.run. induction evs as [|e evs IH] using rev_ind.
  - split; constructor.
  - rewrite foldl_app. simpl. by apply step_queueOrdered.
Qed.

(** A pending job is not dispatched while a job that goes before it
    is pending too. *)
Lemma processQueue_keeps_later now s a b :
  StronglySorted inSubmissionOrder (queue s) →
  a ∈ queue s → b ∈ queue s → goesBefore a b →
  b ∈ queue (processQueue now s).
Proof.
  intros Hs Ha Hb Hab. unfold Scheduler.processQueue.
  case_decide; [done|]. case_decide; [done|].
  pose proof (js_sort_perm byPriority (queue s)) as Hperm.
  pose proof (js_sort_stable (queue s) Hs) as Hstable.
  pose proof (js_sort_descending (queue s)) as Hdesc.
  destruct (js_sort byPriority (queue s)) as [|job rest]; [done|].
  simpl. rewrite <-Hperm in Ha, Hb.
  apply StronglySorted_cons in Hstable as [Hstable _].
  apply StronglySorted_cons in Hdesc as [Hdesc _].
  apply elem_of_cons in Hb as [->|Hb]; [|done]. exfalso.
  apply elem_of_cons in Ha as [->|Ha].
  - destruct Hab as [?|[_ ?]]; lia.
  - eapply Forall_forall in Hstable, Hdesc; [|done..].
    unfold inSubmissionOrder, byDescendingPriority in *.
    destruct Hab as [?|[? ?]]; lia.
Qed.

(** *** One job per tick *)

(** C8 (amended).  A tick dispatches exactly one job when a slot is
    free and a job is pending, however many slots are free and
    however many jobs are pending: the executor is called once, with a
    job of the highest priority pending, the queue loses that one job,
    and the running set gains at most it.  Otherwise the tick
    dispatches nothing. *)
Theorem tick_dispatches_one_job now s :
  let s' := Scheduler.processQueue config now s in
  if decide ((size (running s) < maxConcurrentJobs config)%nat ∧ queue s ≠ [])
  then ∃ job,
      queue s ≡ₚ job :: queue s'
      ∧ Forall (λ other, priority other <= priority job) (queue s)
      ∧ executorCalls s'
        = executorCalls s
          ++ [Run {| id := id job; type := type job; args := args job;
                     priority := priority job; startTime := Some now;
                     promise := promise job |}]
      ∧ (size (running s') ≤ S (size (running s)))%nat
  else s' = s.
Proof.
  intros s'. subst s'. unfold Scheduler.processQueue.
  case_decide as Hfree.
  - destruct Hfree as [Hfree Hpending].
    rewrite decide_False by lia.
    rewrite decide_False by (by destruct (queue s)).
    pose proof (js_sort_perm byPriority (queue s)) as Hperm.
    pose proof (js_sort_descending (queue s)) as Hdesc.
    destruct (js_sort byPriority (queue s)) as [|job rest].
    { by apply Permutation_nil_l in Hperm. }
    exists job. simpl. split; [done|split; [|split; [done|]]].
    + rewrite <-Hperm. apply StronglySorted_cons in Hdesc as [Hdesc _].
      constructor; [lia|done].
    + apply size_insert_le.
  - case_decide; [done|]. case_decide as Hlen; [done|].
    destruct Hfree. split; [lia|]. by intros Hq; rewrite Hq in Hlen.
Qed.

(** *** Settlement of promises *)

Lemma settle_settled (p p' : nat) v w (ps : list settlement) :
  ps !! p = Some v → v ≠ Pending → settle p' w ps !! p = Some v.
Proof.
  intros Hp Hv. unfold settle.
  destruct (ps !! p') as [[]|] eqn:Hp'; try done.
  rewrite list_lookup_insert_ne; [done|]. intros ->. congruence.
Qed.

Lemma step_settled s e p v :
  promises s !! p = Some v → v ≠ Pending →
  promises (step s e) !! p = Some v.
Proof.
  intros Hp Hv.
  destruct e as [ty a pr st|now|p' now r|p' msg|p'|jobId]; simpl.
  - by apply lookup_app_l_Some.
  - unfold Scheduler.processQueue. repeat case_match; done.
  - destruct (awaiting s !! p'); [|done]. by apply settle_settled.
  - destruct (awaiting s !! p'); [|done]. by apply settle_settled.
  - destruct (timers s !! p'); [|done]. by apply settle_settled.
  - unfold cancelJob.
    destruct (removeFirst jobId (queue s)) as [[job q]|].
    + by apply settle_settled.
    + destruct (running s !! jobId); [|done]. by apply settle_settled.
Qed.

Lemma settled_stays evs s p v :
  promises s !! p = Some v → v ≠ Pending →
  promises (foldl step s evs) !! p = Some v.
Proof.
  revert s. induction evs as [|e evs IH]; intros s Hp Hv; [done|].
  simpl. apply IH; [|done]. by apply step_settled.
Qed.

(** C9.  A pending promise takes the first settlement it is given,
    and a settled promise keeps its outcome whatever happens
    afterwards: the timer firing, the executor returning or throwing,
    a cancellation, ticks and new submissions leave it as it is. *)
Theorem promise_settles_once :
  (∀ ps p v, ps !! p = Some Pending → settle p v ps !! p = Some v)
  ∧ (∀ s evs p v,
       promises s !! p = Some v → v ≠ Pending →
       promises (foldl (Scheduler.step config) s evs) !! p = Some v).
Proof.
  split.
  - intros ps p v Hp. unfold settle. rewrite Hp.
    apply list_lookup_insert_eq. by eapply lookup_lt_Some.
  - intros s evs p v. apply settled_stays.
Qed.

(** *** Timeouts *)



(** *** Dispatch order, over the states the queue reaches *)

Lemma submissions_app evs evs' :
  submissions (evs ++ evs') = (submissions evs + submissions evs')%nat.
Proof.
  induction evs as [|e evs IH]; [done|].
  destruct e; simpl; by rewrite IH.
Qed.

(** [promise] numbers the jobs in the order of their submission: the
    next job gets the number of submissions so far. *)
Lemma promises_length evs :
  length (promises (Scheduler.run config evs)) = submissions evs.
Proof.
  unfold Scheduler.run. induction evs as [|e evs IH] using rev_ind; [done|].
  rewrite foldl_app, submissions_app. simpl.
  destruct e as [ty a pr st|now|p' now r|p' msg|p'|jobId]; simpl.
  - rewrite length_app. simpl. lia.
  - unfold Scheduler.processQueue. repeat case_match; simpl; lia.
  - destruct (awaiting _ !! p'); simpl; rewrite ?settle_length; lia.
  - destruct (awaiting _ !! p'); simpl; rewrite ?settle_length; lia.
  - destruct (timers _ !! p'); simpl; rewrite ?settle_length; lia.
  - unfold cancelJob. repeat case_match; simpl; rewrite ?settle_length; lia.
Qed.

Lemma run_keeps_later evs now a b :
  let s := Scheduler.run config evs in
  a ∈ queue s → b ∈ queue s → goesBefore a b →
  b ∈ queue (processQueue now s).
Proof.
  intros s. apply processQueue_keeps_later. apply run_queueOrdered.
Qed.

End SchedulerProperties.

(** ** Scenarios *)

(** C2.  In every state the queue reaches, a pending job [b] stays
    pending over a tick whenever a job [a] that goes before it (a
    strictly higher priority, or the same priority and an earlier
    submission) is pending as well: ticks being the only dispatch, [a]
    is dispatched no later than [b].  And with two slots and three
    pending jobs of priorities 1, 5 and 3, the jobs are dispatched in
    the order 5, 3, 1, the last one once a slot is free again. *)
Theorem dispatch_by_priority_then_submission :
  (∀ config evs now a b,
     let s := Scheduler.run config evs in
     a ∈ Scheduler.queue s → b ∈ Scheduler.queue s →
     Scheduler.goesBefore a b →
     b ∈ Scheduler.queue (Scheduler.processQueue config now s))
  ∧ Scheduler.priority
      <$> Scheduler.dispatched
            (Scheduler.run twoSlots
               (threeJobs
                ++ [Scheduler.Tick 1000; Scheduler.Tick 2000;
                    Scheduler.Tick 3000;
                    Scheduler.ExecutorReturns 1 3500 "done";
                    Scheduler.Tick 4000]))
    = [5; 3; 1].
Proof.
  split.
  - intros config evs now a b. apply run_keeps_later.
  - reflexivity.
Qed.

Lemma dispatch_by_priority_then_submission_witness :
  let s := Scheduler.run twoSlots threeJobs in
  submitted 0 "/tmp/a.avi" "1700000000000-a" 1
  ∈ Scheduler.queue (Scheduler.processQueue twoSlots 1000 s).
Proof.
  apply (proj1 dispatch_by_priority_then_submission twoSlots threeJobs 1000
           (submitted 1 "/tmp/b.avi" "1700000000001-b" 5)
           (submitted 0 "/tmp/a.avi" "1700000000000-a" 1)).
  - vm_compute. constructor 2. constructor 1.
  - vm_compute. constructor 1.
  - left. simpl. lia.
Defined.

Lemma running_never_exceeds_ceiling_witness :
  (size (Scheduler.running
           (Scheduler.run twoSlots
              (threeJobs ++ [Scheduler.Tick 1000; Scheduler.Tick 2000;
                             Scheduler.Tick 3000]))) ≤ 2)%nat
  ∧ (size (Scheduler.running (Scheduler.run twoSlots threeJobs)) < 2)%nat.
Proof.
  split.
  - apply (proj1 (running_never_exceeds_ceiling twoSlots)).
  - apply (proj2 (running_never_exceeds_ceiling twoSlots) 1000).
    intros Heq. apply (f_equal Scheduler.queue) in Heq.
    vm_compute in Heq. discriminate Heq.
Defined.

(** C8 (as stated) fails: with three slots free and two jobs pending,
    a tick dispatches one job, not two. *)
Lemma tick_admits_one_of_two :
  let s := Scheduler.run threeSlots
             [Scheduler.AddJob "convert" ["-i"; "/tmp/a.avi"] 0 "1700000000000-a";
              Scheduler.AddJob "convert" ["-i"; "/tmp/b.avi"] 0 "1700000000001-b"] in
  let s' := Scheduler.step threeSlots s (Scheduler.Tick 1000) in
  (maxConcurrentJobs threeSlots - size (Scheduler.running s) = 3)%nat
  ∧ length (Scheduler.queue s) = 2%nat
  ∧ length (Scheduler.dispatched s') ≠ 2%nat
  ∧ length (Scheduler.queue s') = 1%nat.
Proof. vm_compute. repeat split; done. Qed.

(** A running job that is cancelled keeps the cancellation when its
    timer fires later: the timeout settles pending promises only. *)
Example cancelled_job_keeps_cancellation :
  Scheduler.promises
    (Scheduler.run threeSlots
       (oneJob ++ [Scheduler.CancelJob "convert-1700000000000-a";
                   Scheduler.TimeoutFires 0])) !! 0%nat
  = Some (Scheduler.Rejected Scheduler.Cancelled).
Proof. reflexivity. Qed.

(** The executor of the base class throws at once; the timer it leaves
    armed finds the promise settled. *)
Example base_class_executor :
  let s := Scheduler.run threeSlots
             (oneJob ++ [Scheduler.ExecutorThrows 0
                           "Job execution not implemented in base class";
                         Scheduler.TimeoutFires 0]) in
  Scheduler.promises s !! 0%nat
  = Some (Scheduler.Rejected
            (Scheduler.ExecutorError
               "Job execution not implemented in base class"))
  ∧ size (Scheduler.running s) = 0%nat.
Proof. split; reflexivity. Qed.

(** A running job is cancelled and the executor returns afterwards:
    the promise keeps the cancellation. *)
Example cancelled_job_ignores_result :
  Scheduler.promises
    (Scheduler.run threeSlots
       (oneJob ++ [Scheduler.CancelJob "convert-1700000000000-a";
                   Scheduler.ExecutorReturns 0 5000 "frame=  100"])) !! 0%nat
  = Some (Scheduler.Rejected Scheduler.Cancelled).
Proof. reflexivity. Qed.

(** The timer fires, and the executor returns and a cancellation comes
    afterwards: the promise keeps the timeout. *)
Lemma promise_settles_once_witness :
  let s := Scheduler.run threeSlots (oneJob ++ [Scheduler.TimeoutFires 0]) in
  Scheduler.promises
    (foldl (Scheduler.step threeSlots) s
       [Scheduler.ExecutorReturns 0 5000 "frame=  100";
        Scheduler.CancelJob "convert-1700000000000-a"]) !! 0%nat
  = Some (Scheduler.Rejected
            (Scheduler.TimedOut "convert-1700000000000-a" 300000)).
Proof.
  apply (proj2 (promise_settles_once threeSlots)).
  - reflexivity.
  - discriminate.
Defined.

(** The argv of the media-info tool for a file under /tmp. *)
Lemma sanitize_drops_flag_tokens_witness :
  "-f" ∉ Security.sanitizeFFmpegArgs threePerMinute (λ p, p) (λ _, ".mp4")
           (λ _, true) ["-i"; "/tmp/a.mp4"; "-f"; "null"; "-"].
Proof.
  apply (proj1 (sanitize_drops_flag_tokens threePerMinute (λ p, p)
                  (λ _, ".mp4") (λ _, true))).
  vm_compute. constructor 1.
Defined.

(** * Further properties *)

Local Set Warnings "-clear-no-such-hyp".

(** ** Strings *)

Lemma append_cons a p q : String a p +:+ q = String a (p +:+ q).
Proof. reflexivity. Qed.

Lemma append_nil q : "" +:+ q = q.
Proof. reflexivity. Qed.

Lemma prefix_spec p s :
  String.prefix p s = true ↔ ∃ after, s = p +:+ after.
Proof.
  revert s. induction p as [|a p IH]; intros s.
  - destruct s; simpl; (split; [by eexists|done]).
  - destruct s as [|b s]; simpl.
    + split; [done|]. by intros [after ?].
    + destruct (Ascii.ascii_dec a b) as [->|Hne].
      * rewrite IH. split.
        -- intros [after ->]. by exists after.
        -- intros [after Heq]. rewrite append_cons in Heq.
           injection Heq as ->. by exists after.
      * split; [done|]. intros [after Heq]. rewrite append_cons in Heq.
        congruence.
Qed.

Lemma includes_spec s p : includes s p = true ↔ occursIn p s.
Proof.
  unfold occursIn. induction s as [|a s IH].
  - change (includes "" p) with (String.prefix p "" || false).
    rewrite orb_false_r, prefix_spec. split.
    + intros [after ->]. by exists "", after.
    + intros ([|b before] & after & Heq); [by exists after|done].
  - change (includes (String a s) p)
      with (String.prefix p (String a s) || includes s p).
    rewrite orb_true_iff, prefix_spec, IH. split.
    + intros [[after ->]|(before & after & ->)].
      * by exists "", after.
      * by exists (String a before), after.
    + intros ([|b before] & after & Heq).
      * left. by exists after.
      * right. rewrite append_cons in Heq. injection Heq as -> ->.
        by exists before, after.
Qed.

(** ** Argument sanitisation and path validation *)
Section SanitizeFurther.
Context (config : Security.SecurityConfig).
Context (resolve extnameLower : string → string) (existsSync : string → bool).

Local Abbreviation sanitize args :=
  (Security.sanitizeFFmpegArgs config resolve extnameLower existsSync args).
Local Abbreviation validate arg :=
  (Security.validateFilePath config resolve extnameLower existsSync arg).
Local Abbreviation invalid arg :=
  (Security.looksLikePath arg && bool_decide (is_Some (validate arg))).

Lemma sanitize_sublist args : sanitize args `sublist_of` args.
Proof.
  induction args as [|arg|arg next rest IH1 IH2] using args_ind.
  - done.
  - destruct (decide (arg ∈ Security.dangerousFlags)) as [Hd|Hd].
    { rewrite sanitize_dangerous by done. by apply sublist_cons. }
    rewrite sanitize_other; [|done|by right].
    case_match; [by apply sublist_cons|by apply sublist_skip].
  - destruct (decide (arg ∈ Security.dangerousFlags)) as [Hd|Hd].
    { rewrite sanitize_dangerous by done. by apply sublist_cons. }
    destruct (decide (arg = "-i" ∧ next = "pipe:")) as [[-> ->]|Hp].
    { rewrite sanitize_pipe. by do 2 apply sublist_cons. }
    rewrite sanitize_other; [|done|].
    2:{ simpl. destruct (decide (arg = "-i")); [right|left]; naive_solver. }
    case_match; [by apply sublist_cons|by apply sublist_skip].
Qed.

Lemma sanitize_length args : (length (sanitize args) ≤ length args)%nat.
Proof. apply sublist_length, sanitize_sublist. Qed.

(** X1.  [sanitizeFFmpegArgs] only removes: what it returns is the
    argument list with some tokens left out, the others in their
    order, nothing added and nothing changed. *)
Theorem sanitize_only_removes args :
  Security.sanitizeFFmpegArgs config resolve extnameLower existsSync args
  `sublist_of` args.
Proof. apply sanitize_sublist. Qed.

Lemma invalid_false arg :
  invalid arg = false ↔ (Security.looksLikePath arg = true → validate arg = None).
Proof.
  destruct (Security.looksLikePath arg); simpl.
  - rewrite bool_decide_eq_false. split.
    + intros Hnot _. destruct (validate arg); [|done].
      destruct Hnot. by eexists.
    + intros Hnone [msg Hsome]. rewrite Hnone in Hsome; done.
  - split; [done|]. done.
Qed.

Lemma sanitize_valid args tok :
  tok ∈ sanitize args → Security.looksLikePath tok = true →
  validate tok = None.
Proof.
  induction args as [|arg|arg next rest IH1 IH2] using args_ind.
  - simpl. by intros ?%elem_of_nil.
  - destruct (decide (arg ∈ Security.dangerousFlags)) as [Hd|Hd].
    { rewrite sanitize_dangerous by done. simpl. by intros ?%elem_of_nil. }
    rewrite sanitize_other; [|done|by right].
    destruct (invalid arg) eqn:Hinv; [simpl; by intros ?%elem_of_nil|].
    intros Hin. apply elem_of_cons in Hin as [->|Hin].
    + by apply invalid_false.
    + simpl in Hin. by apply elem_of_nil in Hin.
  - destruct (decide (arg ∈ Security.dangerousFlags)) as [Hd|Hd].
    { by rewrite sanitize_dangerous. }
    destruct (decide (arg = "-i" ∧ next = "pipe:")) as [[-> ->]|Hp].
    { by rewrite sanitize_pipe. }
    rewrite sanitize_other; [|done|].
    2:{ simpl. destruct (decide (arg = "-i")); [right|left]; naive_solver. }
    destruct (invalid arg) eqn:Hinv; [done|].
    intros Hin. apply elem_of_cons in Hin as [->|Hin]; [|by apply IH2].
    by apply invalid_false.
Qed.

Lemma validate_accepts filePath :
  validate filePath = None
  ↔ filePath ≠ ""
    ∧ (¬ occursIn ".." filePath)
    ∧ (¬ occursIn "~" filePath)
    ∧ (∃ dir, dir ∈ Security.allowedDirectories config
              ∧ startsWith (resolve filePath) (resolve dir) = true)
    ∧ (extnameLower filePath ∉ Security.blockedExtensions config)
    ∧ existsSync (resolve filePath) = true.
Proof.
  unfold Security.validateFilePath.
  rewrite <-!includes_spec.
  destruct (decide (filePath = "")) as [Hempty|Hempty]; [naive_solver|].
  destruct (includes filePath "..") eqn:Hdots; simpl; [naive_solver|].
  destruct (includes filePath "~") eqn:Htilde; simpl; [naive_solver|].
  destruct (existsb _ _) eqn:Hallowed; simpl.
  - apply existsb_exists in Hallowed as [dir [Hdir Hstarts]].
    apply list_elem_of_In in Hdir.
    case_bool_decide as Hext; [naive_solver|].
    destruct (existsSync (resolve filePath)) eqn:Hexists; simpl;
      naive_solver.
  - split; [done|]. intros (_ & _ & _ & (dir & Hdir & Hstarts) & _).
    apply not_true_iff_false in Hallowed. destruct Hallowed.
    apply existsb_exists. exists dir. by rewrite <-list_elem_of_In.
Qed.

(** X2.  Every token of the sanitised list that looks like a path (it
    starts with '/', './' or '../') has passed [validateFilePath]; so
    nothing that looks like a path and contains '..' is ever kept. *)
Theorem sanitize_keeps_validated_paths args tok :
  tok ∈ Security.sanitizeFFmpegArgs config resolve extnameLower existsSync args →
  Security.looksLikePath tok = true →
  Security.validateFilePath config resolve extnameLower existsSync tok = None
  ∧ (¬ occursIn ".." tok).
Proof.
  intros Hin Hpath. pose proof (sanitize_valid args tok Hin Hpath) as Hvalid.
  split; [done|]. apply validate_accepts in Hvalid. tauto.
Qed.

(** X3.  [validateFilePath] returns without throwing exactly for a
    non-empty path in which neither '..' nor '~' occurs, whose resolved
    form starts with the resolved form of an allowed directory, whose
    lower-cased extension is not blocked, and whose resolved form
    exists. *)
Theorem validateFilePath_accepts_exactly filePath :
  Security.validateFilePath config resolve extnameLower existsSync filePath
  = None
  ↔ filePath ≠ ""
    ∧ (¬ occursIn ".." filePath)
    ∧ (¬ occursIn "~" filePath)
    ∧ (∃ dir, dir ∈ Security.allowedDirectories config
              ∧ startsWith (resolve filePath) (resolve dir) = true)
    ∧ (extnameLower filePath ∉ Security.blockedExtensions config)
    ∧ existsSync (resolve filePath) = true.
Proof. apply validate_accepts. Qed.

Lemma sanitize_unchanged args :
  sanitize args = args
  ↔ (∀ tok, tok ∈ args →
       (tok ∉ Security.dangerousFlags)
       ∧ (Security.looksLikePath tok = true → validate tok = None))
    ∧ (¬ pipedInput args).
Proof.
  induction args as [|arg rest IH].
  - split; [|done]. intros _. split.
    + by intros tok ?%elem_of_nil.
    + intros ([|? ?] & after & Heq); done.
  - pose proof (sanitize_length rest) as Hlen.
    destruct (decide (arg ∈ Security.dangerousFlags)) as [Hd|Hd].
    { rewrite sanitize_dangerous by done. split.
      - intros Heq. rewrite Heq in Hlen. simpl in Hlen. lia.
      - intros [Htok _]. destruct (Htok arg); [by left|done]. }
    destruct (decide (arg = "-i" ∧ head rest = Some "pipe:")) as [[-> Hp]|Hp].
    { destruct rest as [|next rest']; [done|]. injection Hp as ->.
      rewrite sanitize_pipe. split.
      - intros Heq. pose proof (sanitize_length rest') as Hlen'.
        rewrite Heq in Hlen'. simpl in Hlen'. lia.
      - intros [_ Hpiped]. destruct Hpiped. by exists [], rest'. }
    rewrite sanitize_other; [|done|].
    2:{ destruct (decide (arg = "-i")); [right|left]; naive_solver. }
    destruct (invalid arg) eqn:Hinv.
    { split.
      - intros Heq. rewrite Heq in Hlen. simpl in Hlen. lia.
      - intros [Htok _]. destruct (Htok arg) as [_ Hvalid]; [by left|].
        pose proof (proj2 (invalid_false arg) Hvalid). congruence. }
    pose proof (proj1 (invalid_false arg) Hinv) as Hvalid. split.
    + intros [= Heq]. apply IH in Heq as [Htok Hpiped]. split.
      * intros tok [->|Hin]%elem_of_cons; [done|by apply Htok].
      * intros ([|first before] & after & Heq).
        -- injection Heq as -> ->. destruct Hp. done.
        -- injection Heq as -> ->. destruct Hpiped. by exists before, after.
    + intros [Htok Hpiped]. f_equal. apply IH. split.
      * intros tok Hin. apply Htok. by right.
      * intros (before & after & ->). destruct Hpiped.
        by exists (arg :: before), after.
Qed.

(** X4.  [sanitizeFFmpegArgs] returns its argument list unchanged
    exactly when no token is one of the dangerous flags, every token
    that looks like a path passes [validateFilePath], and '-i' nowhere
    stands directly before 'pipe:'. *)
Theorem sanitize_unchanged_exactly args :
  Security.sanitizeFFmpegArgs config resolve extnameLower existsSync args = args
  ↔ (∀ tok, tok ∈ args →
       (tok ∉ Security.dangerousFlags)
       ∧ (Security.looksLikePath tok = true →
          Security.validateFilePath config resolve extnameLower existsSync tok
          = None))
    ∧ (¬ pipedInput args).
Proof. apply sanitize_unchanged. Qed.

End SanitizeFurther.

(** ** The argument list of the process *)
Section ExecutorProperties.
Import Executor.
Context (config : FFmpegConfig) (os : platform).

Lemma findIndex_first token (before after : list string) :
  token ∉ before →
  findIndex token (before ++ token :: after) = Some (length before).
Proof.
  induction before as [|arg before IH]; intros Hnot; simpl.
  - by rewrite decide_True.
  - apply not_elem_of_cons in Hnot as [Hne Hnot].
    rewrite decide_False by done. by rewrite IH.
Qed.

Lemma findIndex_none token (args : list string) :
  token ∉ args → findIndex token args = None.
Proof.
  induction args as [|arg args IH]; intros Hnot; simpl; [done|].
  apply not_elem_of_cons in Hnot as [Hne Hnot].
  rewrite decide_False by done. by rewrite IH.
Qed.

(** X5.  [addHardwareAcceleration] puts the acceleration flags directly
    before the first '-i' when acceleration is enabled, flags were
    detected, and that '-i' is not the first argument.  It returns the
    arguments unchanged when '-i' is the first argument, and when there
    is no '-i'. *)
Theorem addHardwareAcceleration_before_first_input :
  (∀ before after,
     enableGPU config = true →
     detectHardwareAcceleration config os ≠ [] →
     before ≠ [] → "-i" ∉ before →
     addHardwareAcceleration config os (before ++ "-i" :: after)
     = before ++ detectHardwareAcceleration config os ++ "-i" :: after)
  ∧ (∀ rest,
       addHardwareAcceleration config os ("-i" :: rest) = "-i" :: rest)
  ∧ (∀ args,
       "-i" ∉ args → addHardwareAcceleration config os args = args).
Proof.
  split; [|split].
  - intros before after Hgpu Hhw Hbefore Hnot. unfold addHardwareAcceleration.
    rewrite Hgpu. simpl.
    rewrite decide_True
      by (destruct (detectHardwareAcceleration config os); simpl; [done|lia]).
    rewrite findIndex_first by done.
    rewrite decide_True by (destruct before; simpl; [done|lia]).
    by rewrite take_app_length, drop_app_length.
  - intros rest. unfold addHardwareAcceleration.
    destruct (enableGPU config); simpl; [|done]. by case_decide.
  - intros args Hnot. unfold addHardwareAcceleration.
    destruct (enableGPU config); simpl; [|done].
    case_decide; [|done]. by rewrite findIndex_none.
Qed.

(** X6.  For an argument list that starts with '-i' followed by
    anything but 'pipe:' (the media-info, extraction, resizing and GIF
    tools build such lists), the arguments
    handed to the process are the sanitised arguments: they start with
    '-i' again, and no acceleration flag is added on any platform. *)
Theorem finalArgs_of_input_first security resolve extnameLower existsSync rest :
  head rest ≠ Some "pipe:" →
  finalArgs config os security resolve extnameLower existsSync ("-i" :: rest)
  = "-i" :: Security.sanitizeFFmpegArgs security resolve extnameLower
              existsSync rest.
Proof.
  intros Hrest. unfold finalArgs.
  rewrite sanitize_other; [|by apply (bool_decide_unpack _)|by right].
  change (Security.looksLikePath "-i") with false. simpl andb. cbv iota.
  unfold addHardwareAcceleration.
  destruct (enableGPU config); simpl; [|done]. by case_decide.
Qed.

End ExecutorProperties.

(** ** Rate limiter: clients and sweeps *)
Section RateLimitFurther.
Import Security.
Context (config : SecurityConfig).

Local Abbreviation check := (checkRateLimit config).
Local Abbreviation sweep := (cleanupRateLimitMap config).

Lemma agree_refl c s : agree c s s.
Proof. by split. Qed.

Lemma agree_trans c s1 s2 s3 : agree c s1 s2 → agree c s2 s3 → agree c s1 s3.
Proof. intros [? ?] [? ?]. split; [tauto|congruence]. Qed.

Lemma agree_sym c s1 s2 : agree c s1 s2 → agree c s2 s1.
Proof. intros [? ?]. split; [tauto|congruence]. Qed.

Lemma check_agree c now s1 s2 :
  agree c s1 s2 →
  (check now c s1).1 = (check now c s2).1
  ∧ agree c (check now c s1).2 (check now c s2).2.
Proof.
  intros [Hb Hm]. unfold checkRateLimit.
  destruct (decide (c ∈ blockedIPs s1)) as [H1|H1].
  { rewrite decide_True by tauto. by split. }
  rewrite decide_False by tauto. rewrite <-Hm.
  destruct (rateLimitMap s1 !! c) as [entry|]; simpl.
  - case_decide; simpl.
    + split; [done|]. split; simpl; [tauto|by rewrite !lookup_insert_eq].
    + case_decide; simpl; (split; [done|]); split; simpl;
        rewrite ?lookup_insert_eq, ?elem_of_union; tauto.
  - split; [done|]. split; simpl; [tauto|by rewrite !lookup_insert_eq].
Qed.

Lemma check_other c c' now s : c' ≠ c → agree c (check now c' s).2 s.
Proof.
  intros Hne. unfold checkRateLimit, agree.
  repeat case_match; simpl; rewrite ?lookup_insert_ne by done;
    rewrite ?elem_of_union, ?elem_of_singleton; (split; [|done]);
    try tauto.
  split; [|tauto]. intros [?|?]; [congruence|done].
Qed.

Lemma sweep_agree c now s1 s2 :
  agree c s1 s2 → agree c (sweep now s1) (sweep now s2).
Proof.
  intros [Hb Hm]. split; [done|]. simpl.
  by rewrite !map_lookup_filter, Hm.
Qed.

Lemma step_agree c e s1 s2 :
  agree c s1 s2 → agree c (step config s1 e) (step config s2 e).
Proof.
  intros Hagree. destruct e as [c' now|now]; simpl.
  - destruct (decide (c' = c)) as [->|Hne].
    + by apply check_agree.
    + eapply agree_trans; [by apply check_other|].
      eapply agree_trans; [done|]. by apply agree_sym, check_other.
  - by apply sweep_agree.
Qed.

Lemma answers_agree c evs s1 s2 :
  agree c s1 s2 → answers config c evs s1 = answers config c evs s2.
Proof.
  revert s1 s2. induction evs as [|e evs IH]; intros s1 s2 Hagree; [done|].
  pose proof (step_agree c e s1 s2 Hagree) as Hstep.
  destruct e as [c' now|now]; simpl; [case_decide as Hc|].
  - subst c'. f_equal; [by apply check_agree|by apply IH].
  - by apply IH.
  - by apply IH.
Qed.

(** X7.  The answers a client gets depend on its own requests and on
    the sweeps only: the requests of other clients, whatever they are
    and whether they are admitted, denied or blocked, can be left out
    without changing any answer to the client. *)
Theorem rate_limit_clients_do_not_interfere c evs s :
  Security.answers config c evs s
  = Security.answers config c (filter (λ e, concerns c e) evs) s.
Proof.
  revert s. induction evs as [|e evs IH]; intros s; [done|].
  rewrite filter_cons. destruct e as [c' now|now]; simpl.
  - case_bool_decide as Hc; simpl.
    + subst c'. rewrite decide_True by done. rewrite decide_True by done.
      f_equal. apply IH.
    + rewrite decide_False by done. rewrite <-IH.
      apply answers_agree. by apply check_other.
  - apply IH.
Qed.

Lemma swept_later T T' s s' : T <= T' → swept config T s s' → swept config T' s s'.
Proof.
  intros Hle [Hb Hm]. split; [done|]. intros k.
  destruct (Hm k) as [?|(? & entry & ? & ?)]; [by left|right].
  split; [done|]. exists entry. split; [done|lia].
Qed.

Lemma swept_insert T s s' c entry b b' :
  swept config T s s' → b = b' →
  swept config T {| rateLimitMap := <[c := entry]> (rateLimitMap s); blockedIPs := b |}
          {| rateLimitMap := <[c := entry]> (rateLimitMap s'); blockedIPs := b' |}.
Proof.
  intros [Hb Hm] ->. split; [done|]. intros k. simpl.
  destruct (decide (c = k)) as [->|Hne].
  - left. by rewrite !lookup_insert_eq.
  - rewrite !lookup_insert_ne by done. apply Hm.
Qed.

Lemma check_swept T now c s s' :
  T <= now → swept config T s s' →
  (check now c s).1 = (check now c s').1
  ∧ swept config now (check now c s).2 (check now c s').2.
Proof.
  intros Hle Hswept.
  pose proof (swept_later T now s s' Hle Hswept) as Hnow.
  destruct Hswept as [Hb Hm]. unfold checkRateLimit. rewrite <-Hb.
  destruct (decide (c ∈ blockedIPs s)); [done|].
  destruct (Hm c) as [Heq|(Hnone & entry & Hsome & Hstale)].
  - rewrite <-Heq. destruct (rateLimitMap s !! c) as [entry|]; simpl.
    + case_decide; simpl.
      * split; [done|]. by apply swept_insert.
      * case_decide; simpl; (split; [done|]); by apply swept_insert.
    + split; [done|]. by apply swept_insert.
  - rewrite Hnone, Hsome. simpl. rewrite decide_True by lia. simpl.
    split; [done|]. by apply swept_insert.
Qed.

Lemma sweep_swept T now s s' :
  T <= now → swept config T s s' → swept config now (sweep now s) s'.
Proof.
  intros Hle Hswept. apply (swept_later T now) in Hswept; [|done].
  destruct Hswept as [Hb Hm]. split; [done|]. intros k. simpl.
  destruct (Hm k) as [Heq|(Hnone & entry & Hsome & Hstale)].
  - destruct (rateLimitMap s' !! k) as [entry|] eqn:Hk.
    + destruct (decide (now - windowStart entry
                        > rateLimitWindow config * 1000)) as [Hstale|Hfresh].
      * right. split; [|by exists entry].
        apply map_lookup_filter_None. right. intros entry' Hk'. simpl.
        rewrite Heq in Hk'. injection Hk' as ->. tauto.
      * left. apply map_lookup_filter_Some. by rewrite Heq.
    + left. apply map_lookup_filter_None. by left.
  - right. split; [|by exists entry].
    apply map_lookup_filter_None. by left.
Qed.

Lemma answers_swept c evs :
  ∀ T s s',
    swept config T s s' →
    Forall (λ e, T <= eventTime e) evs → inTimeOrder evs →
    answers config c evs s
    = answers config c (filter (λ e, isRequest e) evs) s'.
Proof.
  induction evs as [|e evs IH]; intros T s s' Hswept Hafter Hsorted; [done|].
  apply Forall_cons in Hafter as [Hle Hafter].
  apply StronglySorted_cons in Hsorted as [Hnext Hsorted].
  rewrite filter_cons. destruct e as [c' now|now]; simpl in *.
  - destruct (check_swept T now c' s s' Hle Hswept) as [Hanswer Hstate].
    pose proof (IH now _ _ Hstate Hnext Hsorted) as Hrest.
    case_decide; [by f_equal|done].
  - apply (IH now); [|done..]. by eapply sweep_swept.
Qed.

(** X8.  With a clock that never runs backwards, the periodic sweep
    changes no decision: every client gets the answers it would get if
    the sweeps never ran. *)
Theorem rate_limit_sweeps_change_no_answer c evs s :
  inTimeOrder evs →
  Security.answers config c evs s
  = Security.answers config c (filter (λ e, isRequest e) evs) s.
Proof.
  intros Hsorted. destruct evs as [|e evs]; [done|].
  apply (answers_swept c (e :: evs) (eventTime e)); [| |done].
  - split; [done|]. intros k. by left.
  - apply StronglySorted_cons in Hsorted as [Hnext _].
    constructor; [lia|done].
Qed.

End RateLimitFurther.

(** ** Result cache: round trip, frame and bound *)
Section CacheFurther.
Import Cache.
Context {MediaInfo : Type} (config : PerformanceConfig).

Local Abbreviation CacheManager := (Cache.CacheManager MediaInfo).
Local Abbreviation CacheEntry := (Cache.CacheEntry MediaInfo).
Local Abbreviation key filePath := (generateCacheKey filePath "mediaInfo").

Implicit Types (m l : list (string * CacheEntry)) (s : CacheManager).
Implicit Types (evs : list (Cache.event MediaInfo)).

Lemma key_inj filePath filePath' : key filePath = key filePath' → filePath = filePath'.
Proof. unfold generateCacheKey. intros Heq. by simplify_eq/=. Qed.

Lemma map_get_set_eq k (v : CacheEntry) m : map_get k (map_set k v m) = Some v.
Proof.
  induction m as [|[k' v'] m IH]; simpl.
  - by rewrite decide_True.
  - case_decide as Hk; simpl; [by rewrite decide_True|].
    by rewrite decide_False.
Qed.

Lemma map_get_set_ne k k' (v : CacheEntry) m :
  k ≠ k' → map_get k' (map_set k v m) = map_get k' m.
Proof.
  intros Hne. induction m as [|[k0 v0] m IH]; simpl.
  - by rewrite decide_False.
  - case_decide as Hk; simpl.
    + subst k0. by rewrite !decide_False.
    + case_decide; [done|]. apply IH.
Qed.

Lemma map_get_delete_ne k k' m :
  k ≠ k' → map_get k' (map_delete k m) = map_get k' m.
Proof.
  intros Hne. unfold map_delete. induction m as [|[k0 v0] m IH]; [done|].
  rewrite filter_cons. simpl. case_decide as Hk; simpl.
  - case_decide; [done|]. apply IH.
  - subst k0. by rewrite decide_False.
Qed.

Lemma map_set_absent k (v : CacheEntry) m :
  map_get k m = None → map_set k v m = m ++ [(k, v)].
Proof.
  induction m as [|[k' v'] m IH]; simpl; [done|].
  case_decide; [done|]. intros Hnone. by rewrite IH.
Qed.

Lemma map_set_present k (v : CacheEntry) m :
  is_Some (map_get k m) → (map_set k v m).*1 = m.*1.
Proof.
  induction m as [|[k' v'] m IH]; simpl; [by intros [? ?]|].
  case_decide as Hk; [by subst k'|]. intros Hsome.
  rewrite !fmap_cons. by rewrite IH.
Qed.

Lemma map_set_length_le k (v : CacheEntry) m :
  (length (map_set k v m) ≤ S (length m))%nat.
Proof.
  destruct (map_get k m) eqn:Hget.
  - rewrite <-(length_fmap fst), map_set_present, length_fmap by done. lia.
  - rewrite map_set_absent, length_app by done. simpl. lia.
Qed.

Lemma map_delete_length_le k m : (length (map_delete k m) ≤ length m)%nat.
Proof. apply length_filter. Qed.

Lemma foldl_delete_length_le l m :
  (length (foldl (λ m kv, map_delete kv.1 m) m l) ≤ length m)%nat.
Proof.
  revert m. induction l as [|kv l IH]; intros m; simpl; [done|].
  etrans; [apply IH|]. apply map_delete_length_le.
Qed.

Lemma cleanupCache_length_le now s :
  (length (mediaInfoCache (cleanupCache config now s))
   ≤ length (mediaInfoCache s))%nat.
Proof.
  unfold cleanupCache. case_decide; [done|]. apply foldl_delete_length_le.
Qed.

Lemma getMediaInfo_length_le statSync filePath s :
  (length (mediaInfoCache (getMediaInfo config statSync filePath s).2)
   ≤ length (mediaInfoCache s))%nat.
Proof.
  unfold getMediaInfo. destruct (enableCaching config); simpl; [|done].
  destruct (map_get _ _) eqn:Hget; [|done].
  destruct (statSync filePath); [case_decide|]; simpl;
    try apply map_delete_length_le.
  rewrite <-(length_fmap fst), map_set_present, length_fmap by done. done.
Qed.

(** The slack is kept by every operation. *)
Lemma run_withinSlack evs : withinSlack config (Cache.run config evs).
Proof.
  unfold withinSlack.
  destruct (decide (cacheSize config / 5 = 0)%nat) as [Hzero|Hpos]; [by right|].
  left. induction evs as [|e evs IH] using rev_ind; [simpl; lia|].
  pose proof (run_wf config evs) as Hwf.
  unfold Cache.run in *. rewrite foldl_app. simpl.
  set (s := foldl (Cache.step config) initial evs) in *.
  destruct e as [statSync filePath|now filePath info|filePath|now|];
    cbn [Cache.step].
  - pose proof (getMediaInfo_length_le statSync filePath s). lia.
  - unfold setMediaInfo, maxSize.
    destruct (enableCaching config); cbn [negb]; [|done].
    set (entry := {| data := info; timestamp := now; accessCount := 1 |}).
    pose proof (map_set_length_le (key filePath) entry (mediaInfoCache s)).
    pose proof (map_set_wf (key filePath) entry (mediaInfoCache s) Hwf) as Hwf'.
    case_decide as Hover; cbn [mediaInfoCache] in *; [|lia].
    rewrite (cleanupCache_length config now
               {| mediaInfoCache := map_set (key filePath) entry (mediaInfoCache s) |})
      by done.
    cbn [mediaInfoCache]. case_decide; [lia|].
    revert Hpos Hover H IH. generalize (cacheSize config / 5)%nat.
    intros; lia.
  - pose proof (map_delete_length_le (key filePath) (mediaInfoCache s)).
    unfold invalidateMediaInfo. cbn [mediaInfoCache]. lia.
  - pose proof (cleanupCache_length_le now s). lia.
  - unfold clearCache. cbn [mediaInfoCache length]. lia.
Qed.

(** X9.  With [cacheSize] of five or more, the cache never holds more
    than [1.2 * cacheSize] entries, whatever is inserted, looked up,
    invalidated or swept.  With [cacheSize] below five the sweep removes
    nothing at all ([floor (cacheSize * 0.2) = 0]), so nothing bounds
    the cache. *)
Theorem cache_size_within_slack :
  ((5 ≤ cacheSize config)%nat →
   ∀ evs,
     (5 * length (mediaInfoCache (Cache.run config evs))
      ≤ 6 * cacheSize config)%nat)
  ∧ ((cacheSize config < 5)%nat →
     ∀ now s, cleanupCache config now s = s).
Proof.
  split.
  - intros Hsize evs. destruct (run_withinSlack evs) as [Hle|Hzero]; [done|].
    apply Nat.div_small_iff in Hzero; lia.
  - intros Hsize now s. unfold cleanupCache, toRemoveCount, maxSize.
    case_decide; [done|].
    rewrite (Nat.div_small (cacheSize config) 5) by done.
    simpl. by destruct s.
Qed.


Lemma getMediaInfo_other statSync filePath filePath' s :
  filePath ≠ filePath' →
  map_get (key filePath')
    (mediaInfoCache (getMediaInfo config statSync filePath s).2)
  = map_get (key filePath') (mediaInfoCache s).
Proof.
  intros Hne. assert (key filePath ≠ key filePath') by (by intros ?%key_inj).
  unfold getMediaInfo. destruct (enableCaching config); simpl; [|done].
  destruct (map_get (key filePath) _); [|done].
  destruct (statSync filePath); [case_decide|]; simpl;
    by rewrite ?map_get_delete_ne, ?map_get_set_ne.
Qed.

Lemma getMediaInfo_answer statSync filePath s s' :
  map_get (key filePath) (mediaInfoCache s)
  = map_get (key filePath) (mediaInfoCache s') →
  (getMediaInfo config statSync filePath s).1
  = (getMediaInfo config statSync filePath s').1.
Proof.
  intros Heq. unfold getMediaInfo. rewrite Heq.
  destruct (enableCaching config); simpl; [|done].
  destruct (map_get _ (mediaInfoCache s')); [|done].
  destruct (statSync filePath); [case_decide|]; done.
Qed.

(** X11.  Looking up or invalidating one file leaves every other file
    as it was: a later [getMediaInfo] of another file gives the answer
    it would have given before. *)
Theorem other_files_are_untouched statSync statSync' filePath filePath' s :
  filePath ≠ filePath' →
  (getMediaInfo config statSync' filePath'
     (getMediaInfo config statSync filePath s).2).1
  = (getMediaInfo config statSync' filePath' s).1
  ∧ (getMediaInfo config statSync' filePath'
       (invalidateMediaInfo filePath s)).1
    = (getMediaInfo config statSync' filePath' s).1.
Proof.
  intros Hne. split; apply getMediaInfo_answer.
  - by apply getMediaInfo_other.
  - unfold invalidateMediaInfo. simpl. apply map_get_delete_ne.
    by intros ?%key_inj.
Qed.

(** X12.  A hit counts: when [getMediaInfo] returns data, the entry
    keeps its data and its timestamp, its access counter is one higher,
    and the cache holds the same keys in the same order. *)
Theorem hit_raises_access_count statSync filePath s info :
  (getMediaInfo config statSync filePath s).1 = Some info →
  ∃ entry,
    map_get (key filePath) (mediaInfoCache s) = Some entry
    ∧ data entry = info
    ∧ map_get (key filePath)
        (mediaInfoCache (getMediaInfo config statSync filePath s).2)
      = Some {| data := info; timestamp := timestamp entry;
                accessCount := S (accessCount entry) |}
    ∧ (mediaInfoCache (getMediaInfo config statSync filePath s).2).*1
      = (mediaInfoCache s).*1.
Proof.
  unfold getMediaInfo. destruct (enableCaching config); simpl; [|done].
  destruct (map_get (key filePath) _) as [entry|] eqn:Hget; [|done].
  destruct (statSync filePath); [case_decide|]; simpl; try done.
  intros [= <-]. exists entry. split; [done|]. split; [done|]. split.
  - apply map_get_set_eq.
  - apply map_set_present. by rewrite Hget.
Qed.

End CacheFurther.

(** ** Job scheduler: accounting of jobs *)
Section SchedulerFurther.
Import Scheduler.
Context (config : PerformanceConfig).

Local Abbreviation step := (Scheduler.step config).

Implicit Types (s : JobQueue) (e : event) (evs : list event).
Implicit Types (ps : list settlement) (job : Job).

Lemma settle_other (p p' : nat) v ps : p ≠ p' → settle p' v ps !! p = ps !! p.
Proof.
  intros Hne. unfold settle. destruct (ps !! p') as [[]|]; try done.
  by rewrite list_lookup_insert_ne.
Qed.

Lemma settle_pending (p : nat) v ps :
  ps !! p = Some Pending → settle p v ps !! p = Some v.
Proof.
  intros Hp. unfold settle. rewrite Hp.
  apply list_lookup_insert_eq. by eapply lookup_lt_Some.
Qed.

Lemma settle_cancelled (p p' : nat) v ps :
  ps !! p = Some (Rejected Cancelled) →
  settle p' v ps !! p = Some (Rejected Cancelled).
Proof. intros Hp. by apply settle_settled. Qed.

(** Settling the promise of a dispatched job keeps the account. *)
Lemma accounted_settle (queued dispatched : list Job) ps job v :
  job ∈ dispatched →
  accounted queued dispatched ps →
  accounted queued dispatched (settle (promise job) v ps).
Proof.
  intros Hjob (Hnodup & Hpending & Hbound & Hall).
  split; [done|]. split; [|split].
  - intros job' Hin. rewrite settle_other; [by apply Hpending|].
    intros Heq. rewrite fmap_app in Hnodup.
    apply NoDup_app in Hnodup as (_ & Hdisjoint & _).
    apply (Hdisjoint (promise job')); [by apply list_elem_of_fmap_2|].
    rewrite Heq. by apply list_elem_of_fmap_2.
  - intros job' Hin. rewrite settle_length. by apply Hbound.
  - intros p Hp. rewrite settle_length in Hp.
    destruct (Hall p Hp) as [?|[?|?]]; [by left|by right; left|].
    right; right. by apply settle_cancelled.
Qed.

Lemma removeFirst_perm jobId (q : list Job) job q' :
  removeFirst jobId q = Some (job, q') → q ≡ₚ job :: q'.
Proof.
  revert job q'. induction q as [|x q IH]; intros job q'; simpl; [done|].
  case_decide.
  - by intros [= <- <-].
  - destruct (removeFirst jobId q) as [[found q'']|]; [|done].
    intros [= <- <-]. rewrite (IH found q'') by done. apply perm_swap.
Qed.

Lemma removeFirst_id jobId (q : list Job) job q' :
  removeFirst jobId q = Some (job, q') → id job = jobId.
Proof.
  revert job q'. induction q as [|x q IH]; intros job q'; simpl; [done|].
  case_decide.
  - by intros [= <- <-].
  - destruct (removeFirst jobId q) as [[found q'']|]; [|done].
    intros [= <- <-]. by eapply IH.
Qed.

Lemma removeFirst_none jobId (q : list Job) :
  removeFirst jobId q = None
  ↔ existsb (λ job, bool_decide (id job = jobId)) q = false.
Proof.
  induction q as [|x q IH]; simpl; [done|].
  case_decide as Hid.
  - rewrite bool_decide_eq_true_2 by done. done.
  - rewrite bool_decide_eq_false_2 by done. simpl. rewrite <-IH.
    by destruct (removeFirst jobId q) as [[? ?]|].
Qed.

Lemma dispatched_app s job calls :
  executorCalls s = calls ++ [Run job] →
  dispatched s
  = omap (λ c, match c with Run j => Some j | Terminate _ => None end) calls
    ++ [job].
Proof. intros Heq. unfold dispatched. by rewrite Heq, omap_app. Qed.

Lemma accounted_addJob (queued dispatched : list Job) ps job :
  promise job = length ps →
  accounted queued dispatched ps →
  accounted (queued ++ [job]) dispatched (ps ++ [Pending]).
Proof.
  intros Hjob (Hnodup & Hpending & Hbound & Hall).
  assert (Hfresh : ∀ job', job' ∈ queued ++ dispatched →
                           (promise job' < length ps)%nat).
  { intros job' [Hin|Hin]%elem_of_app; [|by apply Hbound].
    eapply lookup_lt_Some. by apply Hpending. }
  split; [|split; [|split]].
  - assert ((queued ++ [job]) ++ dispatched ≡ₚ job :: (queued ++ dispatched))
      as -> by (rewrite <-app_assoc; simpl; by rewrite <-Permutation_middle).
    rewrite fmap_cons. apply NoDup_cons. split; [|done].
    intros (job' & Heq & Hin)%list_elem_of_fmap.
    apply Hfresh in Hin. lia.
  - intros job' [Hin|Hin]%elem_of_app.
    + rewrite lookup_app_l; [by apply Hpending|].
      apply Hfresh, elem_of_app. by left.
    + apply list_elem_of_singleton in Hin as ->.
      by apply list_lookup_middle.
  - intros job' Hin. rewrite length_app. simpl.
    pose proof (Hbound job' Hin). lia.
  - intros p Hp. rewrite length_app in Hp. simpl in Hp.
    destruct (decide (p = length ps)) as [->|Hne].
    + left. rewrite fmap_app, elem_of_app. right.
      rewrite <-Hjob. apply list_elem_of_fmap_2. by left.
    + destruct (Hall p ltac:(lia)) as [Hin|[Hin|Hin]].
      * left. rewrite fmap_app, elem_of_app. by left.
      * by right; left.
      * right; right. rewrite lookup_app_l by lia. done.
Qed.

Lemma accounted_dispatch (queued dispatched : list Job) ps job rest job' :
  queued ≡ₚ job :: rest → promise job' = promise job →
  accounted queued dispatched ps →
  accounted rest (dispatched ++ [job']) ps.
Proof.
  intros Hperm Hjob (Hnodup & Hpending & Hbound & Hall).
  assert (Hin : job ∈ queued) by (rewrite Hperm; by left).
  split; [|split; [|split]].
  - assert (promise <$> (rest ++ dispatched ++ [job'])
            ≡ₚ promise <$> (queued ++ dispatched)) as ->; [|done].
    rewrite Hperm, !fmap_app, !fmap_cons, Hjob. simpl.
    rewrite (assoc_L (++)). by rewrite <-Permutation_cons_append.
  - intros job0 Hin0. apply Hpending. rewrite Hperm. by right.
  - intros job0 [Hin0|Hin0]%elem_of_app; [by apply Hbound|].
    apply list_elem_of_singleton in Hin0 as ->. rewrite Hjob.
    eapply lookup_lt_Some. by apply Hpending.
  - intros p Hp. destruct (Hall p Hp) as [Hq|[Hd|Hc]].
    + rewrite Hperm, fmap_cons in Hq. apply elem_of_cons in Hq as [->|Hq].
      * right; left. rewrite fmap_app, elem_of_app. right.
        rewrite <-Hjob. apply list_elem_of_fmap_2. by left.
      * by left.
    + right; left. rewrite fmap_app, elem_of_app. by left.
    + by right; right.
Qed.

Lemma accounted_cancel (queued dispatched : list Job) ps job rest :
  queued ≡ₚ job :: rest →
  accounted queued dispatched ps →
  accounted rest dispatched (settle (promise job) (Rejected Cancelled) ps).
Proof.
  intros Hperm (Hnodup & Hpending & Hbound & Hall).
  assert (Hin : job ∈ queued) by (rewrite Hperm; by left).
  rewrite Hperm, <-app_comm_cons, fmap_cons in Hnodup.
  apply NoDup_cons in Hnodup as [Hfresh Hnodup].
  split; [done|]. split; [|split].
  - intros job0 Hin0. rewrite settle_other.
    + apply Hpending. rewrite Hperm. by right.
    + intros Heq. apply Hfresh. rewrite <-Heq.
      apply list_elem_of_fmap_2, elem_of_app. by left.
  - intros job0 Hin0. rewrite settle_length. by apply Hbound.
  - intros p Hp. rewrite settle_length in Hp.
    destruct (Hall p Hp) as [Hq|[Hd|Hc]].
    + rewrite Hperm, fmap_cons in Hq. apply elem_of_cons in Hq as [->|Hq].
      * right; right. apply settle_pending. by apply Hpending.
      * by left.
    + by right; left.
    + right; right. by apply settle_cancelled.
Qed.

Lemma processQueue_cases now s :
  Scheduler.processQueue config now s = s
  ∨ ∃ job rest,
      queue s ≡ₚ job :: rest
      ∧ Scheduler.processQueue config now s
        = startJob now job
            {| queue := rest; running := running s; completed := completed s;
               promises := promises s; timers := timers s;
               awaiting := awaiting s; executorCalls := executorCalls s |}.
Proof.
  unfold Scheduler.processQueue. case_decide; [by left|].
  case_decide; [by left|].
  pose proof (js_sort_perm byPriority (queue s)) as Hperm.
  destruct (js_sort byPriority (queue s)) as [|job rest]; [by left|].
  right. by exists job, rest.
Qed.

Lemma tracked_dispatched s p job :
  tracked s → awaiting s !! p = Some job → job ∈ dispatched s.
Proof. intros (_ & Hawait & _) Hp. by apply (Hawait p). Qed.

Lemma step_accounted s e :
  accounted (queue s) (dispatched s) (promises s) → tracked s →
  accounted (queue (step s e)) (dispatched (step s e)) (promises (step s e)).
Proof.
  intros Hacc Htracked.
  destruct e as [ty a pr st|now|p now r|p msg|p|jobId]; simpl.
  - by apply accounted_addJob.
  - destruct (processQueue_cases now s) as [->|(job & rest & Hperm & ->)];
      [done|].
    unfold dispatched. simpl. rewrite omap_app. simpl.
    by apply (accounted_dispatch (queue s) _ _ job).
  - destruct (awaiting s !! p) as [job|] eqn:Hp; [|done].
    apply accounted_settle; [|done].
    exact (tracked_dispatched s p job Htracked Hp).
  - destruct (awaiting s !! p) as [job|] eqn:Hp; [|done].
    apply accounted_settle; [|done].
    exact (tracked_dispatched s p job Htracked Hp).
  - destruct (timers s !! p) as [job|] eqn:Hp; [|done].
    apply accounted_settle; [|done].
    destruct Htracked as (_ & _ & Htimers).
    exact (proj2 (Htimers p job Hp)).
  - unfold cancelJob.
    destruct (removeFirst jobId (queue s)) as [[job q]|] eqn:Hrm.
    + apply (accounted_cancel (queue s)); [|done]. by eapply removeFirst_perm.
    + destruct (running s !! jobId) as [job|] eqn:Hrun; [|done].
      apply accounted_settle; [|done].
      destruct Htracked as (Hrunning & Hawaiting & _).
      destruct (Hrunning jobId job Hrun) as (_ & _ & Hawait).
      exact (proj2 (Hawaiting _ job Hawait)).
Qed.

Lemma step_tracked s e :
  accounted (queue s) (dispatched s) (promises s) → tracked s →
  tracked (step s e).
Proof.
  intros Hacc Htracked.
  pose proof Htracked as (Hrunning & Hawaiting & Htimers).
  destruct e as [ty a pr st|now|p now r|p msg|p|jobId]; simpl.
  - done.
  - destruct (processQueue_cases now s) as [->|(job & rest & Hperm & ->)];
      [done|].
    unfold tracked, dispatched. simpl. rewrite omap_app. simpl.
    fold (dispatched s).
    set (job' := {| id := id job; type := type job; args := args job;
                    priority := priority job; startTime := Some now;
                    promise := promise job |}).
    assert (Hnew : ∀ j, j ∈ dispatched s → promise j ≠ promise job).
    { intros j Hj Heq. destruct Hacc as (Hnodup & _).
      rewrite fmap_app in Hnodup. apply NoDup_app in Hnodup as (_ & Hdis & _).
      apply (Hdis (promise job)).
      - apply list_elem_of_fmap_2. rewrite Hperm. by left.
      - rewrite <-Heq. by apply list_elem_of_fmap_2. }
    split; [|split].
    + intros jobId j. rewrite lookup_insert.
      case_decide as Hid.
      * intros [= <-]. split; [done|]. split; [by eexists|].
        by rewrite lookup_insert_eq.
      * intros Hj. destruct (Hrunning jobId j Hj) as (? & ? & Hawait).
        split; [done|]. split; [done|].
        rewrite lookup_insert_ne; [done|].
        intros Heq. apply (Hnew j); [|done]. by eapply tracked_dispatched.
    + intros p j. rewrite lookup_insert. case_decide as Hp.
      * intros [= <-]. split; [done|]. apply elem_of_app. right. by left.
      * intros Hj. destruct (Hawaiting p j Hj). split; [done|].
        apply elem_of_app. by left.
    + intros p j. rewrite lookup_insert. case_decide as Hp.
      * intros [= <-]. split; [done|]. apply elem_of_app. right. by left.
      * intros Hj. destruct (Htimers p j Hj). split; [done|].
        apply elem_of_app. by left.
  - destruct (awaiting s !! p) as [job|] eqn:Hp; [|done].
    destruct (Hawaiting p job Hp) as [Hpromise _].
    unfold tracked, dispatched. simpl. fold (dispatched s).
    split; [|split].
    + intros jobId j [Hid Hj]%lookup_delete_Some.
      destruct (Hrunning jobId j Hj) as (? & ? & Hawait).
      split; [done|]. split; [done|].
      rewrite lookup_delete_ne; [done|]. intros Heq.
      rewrite <-Heq, Hpromise, Hp in Hawait. by simplify_eq.
    + intros p' j [_ Hj]%lookup_delete_Some. by apply Hawaiting.
    + intros p' j [_ Hj]%lookup_delete_Some. by apply Htimers.
  - destruct (awaiting s !! p) as [job|] eqn:Hp; [|done].
    destruct (Hawaiting p job Hp) as [Hpromise _].
    unfold tracked, dispatched. simpl. fold (dispatched s).
    split; [|split; [|done]].
    + intros jobId j [Hid Hj]%lookup_delete_Some.
      destruct (Hrunning jobId j Hj) as (? & ? & Hawait).
      split; [done|]. split; [done|].
      rewrite lookup_delete_ne; [done|]. intros Heq.
      rewrite <-Heq, Hpromise, Hp in Hawait. by simplify_eq.
    + intros p' j [_ Hj]%lookup_delete_Some. by apply Hawaiting.
  - destruct (timers s !! p) as [job|] eqn:Hp; [|done].
    unfold tracked, dispatched. simpl. fold (dispatched s).
    split; [|split; [done|]].
    + intros jobId j [_ Hj]%lookup_delete_Some. by apply Hrunning.
    + intros p' j [_ Hj]%lookup_delete_Some. by apply Htimers.
  - unfold cancelJob.
    destruct (removeFirst jobId (queue s)) as [[job q]|] eqn:Hrm; [done|].
    destruct (running s !! jobId) as [job|] eqn:Hrun; [|done].
    unfold tracked, dispatched. simpl. fold (dispatched s).
    split; [|done].
    intros jobId' j [_ Hj]%lookup_delete_Some. by apply Hrunning.
Qed.

(** Every state the queue reaches keeps the account and the tracking. *)
Lemma run_accounted evs :
  accounted (queue (Scheduler.run config evs))
    (dispatched (Scheduler.run config evs))
    (promises (Scheduler.run config evs))
  ∧ tracked (Scheduler.run config evs).
Proof.
  unfold Scheduler.run. induction evs as [|e evs [IHa IHt]] using rev_ind.
  - split.
    + split; [constructor|]. split; [by intros ? ?%elem_of_nil|].
      split; [by intros ? ?%elem_of_nil|]. simpl. intros; lia.
    + split; [|split]; by intros ? ?.
  - rewrite foldl_app. simpl. split.
    + by apply step_accounted.
    + by apply step_tracked.
Qed.

(** X14.  No job is handed to the executor twice, and no queued job
    has been handed to it: in every state the queue reaches, the
    dispatched jobs are pairwise different submissions and none of them
    is still queued. *)
Theorem no_job_is_dispatched_twice evs :
  let s := Scheduler.run config evs in
  NoDup (promise <$> dispatched s)
  ∧ (∀ job, job ∈ queue s → promise job ∉ promise <$> dispatched s).
Proof.
  intros s. destruct (run_accounted evs) as [(Hnodup & _) _]. fold s in Hnodup.
  rewrite fmap_app in Hnodup. apply NoDup_app in Hnodup as (_ & Hdis & Hd).
  split; [done|]. intros job Hin. apply Hdis. by apply list_elem_of_fmap_2.
Qed.

(** X15.  No submission is lost: in every state the queue reaches, each
    job submitted so far is still queued with a pending promise, or has
    been dispatched, or was cancelled while queued and its promise is
    rejected with the cancellation. *)
Theorem every_submission_is_accounted_for evs p :
  (p < submissions evs)%nat →
  let s := Scheduler.run config evs in
  (∃ job, job ∈ queue s ∧ promise job = p ∧ promises s !! p = Some Pending)
  ∨ (∃ job, job ∈ dispatched s ∧ promise job = p)
  ∨ promises s !! p = Some (Rejected Cancelled).
Proof.
  intros Hp s. rewrite <-(promises_length config) in Hp. fold s in Hp.
  destruct (run_accounted evs) as [(_ & Hpending & _ & Hall) _].
  fold s in Hpending, Hall.
  destruct (Hall p Hp) as [Hq|[Hd|Hc]].
  - left. apply list_elem_of_fmap in Hq as (job & -> & Hin).
    exists job. split; [done|]. split; [done|]. by apply Hpending.
  - right; left. apply list_elem_of_fmap in Hd as (job & -> & Hin).
    by exists job.
  - by right; right.
Qed.

(** X16.  The running set holds jobs in flight only: in every state the
    queue reaches, a job in the running set stands under its own id,
    has a start time, was handed to the executor, and the executor has
    not yet reported on it. *)
Theorem running_jobs_are_in_flight evs jobId job :
  let s := Scheduler.run config evs in
  running s !! jobId = Some job →
  id job = jobId
  ∧ is_Some (startTime job)
  ∧ job ∈ dispatched s
  ∧ awaiting s !! promise job = Some job.
Proof.
  intros s Hrun. destruct (run_accounted evs) as [_ (Hrunning & Hawaiting & _)].
  fold s in Hrunning, Hawaiting.
  destruct (Hrunning jobId job Hrun) as (Hid & Hstart & Hawait).
  repeat split; try done. by apply (Hawaiting (promise job)).
Qed.

(** X17.  [cancelJob] succeeds exactly for a job that [getJobStatus]
    reports as queued or running, and a failed cancellation changes
    nothing. *)
Theorem cancelJob_follows_status jobId s :
  (cancelJob jobId s).1
  = match getJobStatus jobId s with
    | queued | running_ => true
    | completed_ | not_found => false
    end
  ∧ ((cancelJob jobId s).1 = false → (cancelJob jobId s).2 = s).
Proof.
  unfold cancelJob, getJobStatus.
  destruct (removeFirst jobId (queue s)) as [[job q]|] eqn:Hrm.
  - destruct (existsb _ (queue s)) eqn:Hex; [done|].
    apply removeFirst_none in Hex. congruence.
  - rewrite (proj1 (removeFirst_none jobId (queue s)) Hrm).
    destruct (running s !! jobId) as [job|] eqn:Hrun; simpl; [done|].
    by case_bool_decide.
Qed.

(** The promise belongs to no job that is queued or was dispatched. *)
Lemma step_gone s e (p : nat) :
  (p < length (promises s))%nat →
  p ∉ promise <$> queue s → p ∉ promise <$> dispatched s →
  (p < length (promises (step s e)))%nat
  ∧ (p ∉ promise <$> queue (step s e))
  ∧ (p ∉ promise <$> dispatched (step s e)).
Proof.
  intros Hp Hq Hd.
  destruct e as [ty a pr st|now|p' now r|p' msg|p'|jobId]; simpl.
  - rewrite length_app, fmap_app, not_elem_of_app. simpl.
    split; [lia|]. split; [|done]. split; [done|].
    intros ->%list_elem_of_singleton. lia.
  - destruct (processQueue_cases now s) as [->|(job & rest & Hperm & ->)];
      [done|].
    unfold dispatched. simpl. rewrite omap_app. simpl. fold (dispatched s).
    rewrite Hperm, fmap_cons, not_elem_of_cons in Hq. destruct Hq as [Hne Hq].
    split; [done|]. split; [done|].
    rewrite fmap_app, not_elem_of_app. split; [done|].
    by intros ->%list_elem_of_singleton.
  - destruct (awaiting s !! p'); [|done]. simpl. by rewrite settle_length.
  - destruct (awaiting s !! p'); [|done]. simpl. by rewrite settle_length.
  - destruct (timers s !! p'); [|done]. simpl. by rewrite settle_length.
  - unfold cancelJob.
    destruct (removeFirst jobId (queue s)) as [[job q]|] eqn:Hrm.
    + simpl. rewrite settle_length. split; [done|]. split; [|done].
      apply removeFirst_perm in Hrm. rewrite Hrm, fmap_cons in Hq.
      by apply not_elem_of_cons in Hq as [_ Hq].
    + destruct (running s !! jobId); [|done]. simpl. by rewrite settle_length.
Qed.

(** X18.  A job cancelled while it is queued is never run: its promise
    is rejected with the cancellation and stays so, and whatever
    happens afterwards the job is not handed to the executor. *)
Theorem cancelled_queued_job_never_runs evs jobId job rest later :
  removeFirst jobId (queue (Scheduler.run config evs)) = Some (job, rest) →
  let s' := foldl (Scheduler.step config)
              (cancelJob jobId (Scheduler.run config evs)).2 later in
  promises s' !! promise job = Some (Rejected Cancelled)
  ∧ (∀ j, j ∈ dispatched s' → promise j ≠ promise job).
Proof.
  intros Hrm s'. subst s'. set (s := Scheduler.run config evs) in *.
  destruct (run_accounted evs) as [(Hnodup & Hpending & _) _].
  fold s in Hnodup, Hpending.
  pose proof (removeFirst_perm _ _ _ _ Hrm) as Hperm.
  assert (Hjob : promises s !! promise job = Some Pending).
  { apply Hpending. rewrite Hperm. by left. }
  unfold cancelJob. rewrite Hrm. cbn [snd].
  set (s1 := {| queue := rest; running := running s; completed := completed s;
                promises := settle (promise job) (Rejected Cancelled) (promises s);
                timers := timers s; awaiting := awaiting s;
                executorCalls := executorCalls s |}).
  split.
  - apply settled_stays; [|done]. by apply settle_pending.
  - rewrite Hperm, <-app_comm_cons, fmap_cons, fmap_app in Hnodup.
    apply NoDup_cons in Hnodup as [Hfresh _].
    apply not_elem_of_app in Hfresh as [Hq Hd].
    assert ((promise job < length (promises s1))%nat
            ∧ (promise job ∉ promise <$> queue s1)
            ∧ (promise job ∉ promise <$> dispatched s1)) as Hgone.
    { split; [|done]. simpl. rewrite settle_length. by eapply lookup_lt_Some. }
    clearbody s1. clear -Hgone. revert s1 Hgone.
    induction later as [|e later IH]; intros s1 (Hlt & Hq & Hd); simpl.
    + intros j Hj Heq. apply Hd. rewrite <-Heq. by apply list_elem_of_fmap_2.
    + apply IH. by apply step_gone.
Qed.

(** X19.  When the executor returns for a job whose promise is still
    pending, the promise is resolved with the result and keeps it, the
    job is recorded as completed under its id with the time of the
    return, it leaves the running set, and its timer is disarmed: the
    timeout firing afterwards changes nothing. *)
Theorem executor_result_resolves_pending_job s p job now result :
  awaiting s !! p = Some job →
  promises s !! promise job = Some Pending →
  let s' := Scheduler.step config s (ExecutorReturns p now result) in
  (∀ later,
     promises (foldl (Scheduler.step config) s' later) !! promise job
     = Some (Resolved result))
  ∧ completed s' !! id job = Some (result, now)
  ∧ running s' !! id job = None
  ∧ Scheduler.step config s' (TimeoutFires (promise job)) = s'.
Proof.
  intros Hp Hpending s'. subst s'. simpl. rewrite Hp.
  split; [|split; [|split]].
  - intros later. apply settled_stays; [|done]. simpl.
    by apply settle_pending.
  - simpl. apply lookup_insert_eq.
  - simpl. apply lookup_delete_eq.
  - simpl. by rewrite lookup_delete_eq.
Qed.

Lemma existsb_perm (f : Job → bool) (q q' : list Job) :
  q ≡ₚ q' → existsb f q = existsb f q'.
Proof.
  induction 1 as [|x l l' _ IH|x y l|l l' l'' _ IH1 _ IH2]; simpl.
  - done.
  - by rewrite IH.
  - by destruct (f x), (f y).
  - congruence.
Qed.

(** X20.  A completed job stays answerable for a minute: for a job
    reported as completed, a tick keeps the report as long as no more
    than 60000 ms have passed since its completion, and turns it into
    'not_found' after that. *)
Theorem completed_status_lasts_a_minute s jobId result t now :
  completed s !! jobId = Some (result, t) →
  getJobStatus jobId s = completed_ →
  getJobStatus jobId (Scheduler.step config s (Tick now))
  = if decide (now - t > 60000) then not_found else completed_.
Proof.
  intros Hdone. unfold getJobStatus at 1.
  destruct (existsb _ (queue s)) eqn:Hq; [done|].
  case_bool_decide as Hrun; [done|]. intros _.
  assert (running s !! jobId = None) as Hnone
    by (destruct (running s !! jobId); [destruct Hrun; by eexists|done]).
  assert (Hcompleted :
            (filter (λ kv, ¬ (now - kv.2.2 > 60000)) (completed s)) !! jobId
            = if decide (now - t > 60000) then None else Some (result, t)).
  { case_decide.
    - apply map_lookup_filter_None. right. intros [r' t'] Hlook. simpl.
      rewrite Hdone in Hlook. injection Hlook as <- <-. tauto.
    - by apply map_lookup_filter_Some. }
  unfold getJobStatus. simpl.
  destruct (processQueue_cases now s) as [->|(job & rest & Hperm & ->)]; simpl.
  - rewrite Hq, Hnone, Hcompleted.
    rewrite bool_decide_eq_false_2 by (by intros [? ?]).
    case_decide.
    + by rewrite bool_decide_eq_false_2 by (by intros [? ?]).
    + by rewrite bool_decide_eq_true_2 by by eexists.
  - rewrite (existsb_perm _ _ _ Hperm) in Hq. simpl in Hq.
    apply orb_false_iff in Hq as [Hjob Hrest]. rewrite Hrest.
    apply bool_decide_eq_false in Hjob.
    rewrite lookup_insert_ne by done. rewrite Hnone, Hcompleted.
    rewrite bool_decide_eq_false_2 by (by intros [? ?]).
    case_decide.
    + by rewrite bool_decide_eq_false_2 by (by intros [? ?]).
    + by rewrite bool_decide_eq_true_2 by by eexists.
Qed.

End SchedulerFurther.

(** ** The queue with the executor of the class *)
Section EventLoopProperties.
Import Scheduler.
Context (config : PerformanceConfig).

Implicit Types (s : JobQueue) (t : EventLoop.turn) (ts : list EventLoop.turn).








End EventLoopProperties.

(** ** The executor of the class at a concrete run *)



(** ** The further properties at concrete inputs *)

Lemma sanitize_keeps_validated_paths_witness :
  Security.validateFilePath threePerMinute (λ p, p) (λ _, ".mp4") (λ _, true)
    "/tmp/a.mp4" = None
  ∧ (¬ occursIn ".." "/tmp/a.mp4").
Proof.
  apply (sanitize_keeps_validated_paths threePerMinute (λ p, p) (λ _, ".mp4")
           (λ _, true) ["-i"; "/tmp/a.mp4"; "-y"; "/tmp/out.mp4"]).
  - vm_compute. constructor 2. constructor 1.
  - reflexivity.
Defined.

Lemma addHardwareAcceleration_before_first_input_witness :
  Executor.addHardwareAcceleration withGPU Executor.linux
    ["-y"; "-i"; "/tmp/a.mp4"; "/tmp/b.mp4"]
  = ["-y"; "-hwaccel"; "cuda"; "-hwaccel_output_format"; "cuda";
     "-i"; "/tmp/a.mp4"; "/tmp/b.mp4"].
Proof.
  apply (proj1 (addHardwareAcceleration_before_first_input withGPU
                  Executor.linux) ["-y"] ["/tmp/a.mp4"; "/tmp/b.mp4"]).
  - reflexivity.
  - discriminate.
  - discriminate.
  - apply (bool_decide_unpack _). vm_compute. exact I.
Defined.

(** The argv of the media-info tool reaches the process without
    acceleration flags even with the GPU enabled. *)
Lemma finalArgs_of_input_first_witness :
  Executor.finalArgs withGPU Executor.linux threePerMinute (λ p, p)
    (λ _, ".mp4") (λ _, true) ["-i"; "/tmp/a.mp4"; "-f"; "null"; "-"]
  = ["-i"; "/tmp/a.mp4"; "null"; "-"].
Proof.
  apply (finalArgs_of_input_first withGPU Executor.linux threePerMinute
           (λ p, p) (λ _, ".mp4") (λ _, true)
           ["/tmp/a.mp4"; "-f"; "null"; "-"]).
  simpl. discriminate.
Defined.

Lemma rate_limit_sweeps_change_no_answer_witness :
  let evs := [Security.Request "X" 0; Security.Sweep 70000;
              Security.Request "X" 80000; Security.Request "X" 81000;
              Security.Sweep 130000; Security.Request "X" 135000] in
  Security.answers threePerMinute "X" evs Security.initial
  = Security.answers threePerMinute "X"
      [Security.Request "X" 0; Security.Request "X" 80000;
       Security.Request "X" 81000; Security.Request "X" 135000]
      Security.initial.
Proof.
  apply (rate_limit_sweeps_change_no_answer threePerMinute "X").
  repeat constructor; simpl; lia.
Defined.

Lemma cache_size_within_slack_witness :
  (5 * length (Cache.mediaInfoCache
                 (Cache.run tenEntries
                    ((λ f, Cache.Set_ 0 f f) <$> (twelveFiles ++ ["/tmp/m"]))))
   ≤ 6 * 10)%nat.
Proof.
  apply (proj1 (cache_size_within_slack (MediaInfo := string) tenEntries)).
  simpl. lia.
Defined.


Lemma other_files_are_untouched_witness :
  let s := cacheOf ["/tmp/a"; "/tmp/b"] in
  (Cache.getMediaInfo tenEntries (λ _, Some 0) "/tmp/b"
     (Cache.getMediaInfo tenEntries (λ _, None) "/tmp/a" s).2).1
  = (Cache.getMediaInfo tenEntries (λ _, Some 0) "/tmp/b" s).1
  ∧ (Cache.getMediaInfo tenEntries (λ _, Some 0) "/tmp/b"
       (Cache.invalidateMediaInfo "/tmp/a" s)).1
    = (Cache.getMediaInfo tenEntries (λ _, Some 0) "/tmp/b" s).1.
Proof.
  apply (other_files_are_untouched tenEntries (λ _, None) (λ _, Some 0)
           "/tmp/a" "/tmp/b").
  discriminate.
Defined.

Lemma hit_raises_access_count_witness :
  let s := cacheOf ["/tmp/a"] in
  ∃ entry,
    Cache.map_get (Cache.generateCacheKey "/tmp/a" "mediaInfo")
      (Cache.mediaInfoCache s) = Some entry
    ∧ Cache.data entry = "/tmp/a"
    ∧ Cache.map_get (Cache.generateCacheKey "/tmp/a" "mediaInfo")
        (Cache.mediaInfoCache
           (Cache.getMediaInfo tenEntries (λ _, Some 0) "/tmp/a" s).2)
      = Some {| Cache.data := "/tmp/a";
                Cache.timestamp := Cache.timestamp entry;
                Cache.accessCount := S (Cache.accessCount entry) |}
    ∧ (Cache.mediaInfoCache
         (Cache.getMediaInfo tenEntries (λ _, Some 0) "/tmp/a" s).2).*1
      = (Cache.mediaInfoCache s).*1.
Proof.
  apply (hit_raises_access_count tenEntries (λ _, Some 0) "/tmp/a"
           (cacheOf ["/tmp/a"]) "/tmp/a").
  reflexivity.
Defined.

Lemma every_submission_is_accounted_for_witness :
  let s := Scheduler.run twoSlots (threeJobs ++ [Scheduler.Tick 1000]) in
  (∃ job, job ∈ Scheduler.queue s ∧ Scheduler.promise job = 1%nat
          ∧ Scheduler.promises s !! 1%nat = Some Scheduler.Pending)
  ∨ (∃ job, job ∈ Scheduler.dispatched s ∧ Scheduler.promise job = 1%nat)
  ∨ Scheduler.promises s !! 1%nat
    = Some (Scheduler.Rejected Scheduler.Cancelled).
Proof.
  apply (every_submission_is_accounted_for twoSlots
           (threeJobs ++ [Scheduler.Tick 1000]) 1).
  vm_compute. lia.
Defined.

Lemma running_jobs_are_in_flight_witness :
  let s := Scheduler.run threeSlots oneJob in
  let job := started 0 "/tmp/a.avi" "1700000000000-a" 0 1000 in
  Scheduler.id job = "convert-1700000000000-a"
  ∧ is_Some (Scheduler.startTime job)
  ∧ job ∈ Scheduler.dispatched s
  ∧ Scheduler.awaiting s !! Scheduler.promise job = Some job.
Proof.
  apply (running_jobs_are_in_flight threeSlots oneJob
           "convert-1700000000000-a").
  reflexivity.
Defined.

Lemma cancelled_queued_job_never_runs_witness :
  let job := submitted 0 "/tmp/a.avi" "1700000000000-a" 1 in
  let s' := foldl (Scheduler.step twoSlots)
              (Scheduler.cancelJob "convert-1700000000000-a"
                 (Scheduler.run twoSlots threeJobs)).2
              [Scheduler.Tick 1000; Scheduler.Tick 2000;
               Scheduler.ExecutorReturns 1 2500 "done"; Scheduler.Tick 3000] in
  Scheduler.promises s' !! Scheduler.promise job
  = Some (Scheduler.Rejected Scheduler.Cancelled)
  ∧ (∀ j, j ∈ Scheduler.dispatched s' →
          Scheduler.promise j ≠ Scheduler.promise job).
Proof.
  apply (cancelled_queued_job_never_runs twoSlots threeJobs
           "convert-1700000000000-a"
           (submitted 0 "/tmp/a.avi" "1700000000000-a" 1)
           [submitted 1 "/tmp/b.avi" "1700000000001-b" 5;
            submitted 2 "/tmp/c.avi" "1700000000002-c" 3]).
  reflexivity.
Defined.

Lemma executor_result_resolves_pending_job_witness :
  let s := Scheduler.run threeSlots oneJob in
  let job := started 0 "/tmp/a.avi" "1700000000000-a" 0 1000 in
  let s' := Scheduler.step threeSlots s
              (Scheduler.ExecutorReturns 0 5000 "frame=  100") in
  (∀ later,
     Scheduler.promises (foldl (Scheduler.step threeSlots) s' later)
       !! Scheduler.promise job
     = Some (Scheduler.Resolved "frame=  100"))
  ∧ Scheduler.completed s' !! Scheduler.id job = Some ("frame=  100", 5000)
  ∧ Scheduler.running s' !! Scheduler.id job = None
  ∧ Scheduler.step threeSlots s' (Scheduler.TimeoutFires (Scheduler.promise job))
    = s'.
Proof.
  apply (executor_result_resolves_pending_job threeSlots
           (Scheduler.run threeSlots oneJob) 0
           (started 0 "/tmp/a.avi" "1700000000000-a" 0 1000) 5000
           "frame=  100");
    reflexivity.
Defined.

Lemma completed_status_lasts_a_minute_witness :
  let s := Scheduler.run threeSlots
             (oneJob ++ [Scheduler.ExecutorReturns 0 5000 "frame=  100"]) in
  Scheduler.getJobStatus "convert-1700000000000-a"
    (Scheduler.step threeSlots s (Scheduler.Tick 65001))
  = Scheduler.not_found.
Proof.
  apply (completed_status_lasts_a_minute threeSlots
           (Scheduler.run threeSlots
              (oneJob ++ [Scheduler.ExecutorReturns 0 5000 "frame=  100"]))
           "convert-1700000000000-a" "frame=  100" 5000 65001);
    reflexivity.
Defined.
